(** * PhotoSorter: album list and swipe review, embedded from [src/1stFile.js]

    The application has two React components.  [AlbumListScreen] asks the
    device media library for permission, lists the albums with their asset
    counts and sorts them.  [PhotosScreen] shows the photos of one album one
    at a time; a pan gesture released far enough from its origin files the
    current photo into one of three albums, or skips it.

    Embedding.
    - The media library (expo-media-library) is an external collaborator:
      it is an interface, [MediaLibraryService], whose operations may
      resolve or reject and may change the library in any way.
    - An [async] function is a computation in the monad [M]: it threads the
      component's state cell, the library, the log of library calls issued
      and the console, and ends resolved or rejected.
    - A handler reads [photos] and [currentIndex] from the render that
      created it (its closure, an explicit argument here) and writes through
      the state setters into the state cell.
    - Gesture translations are JavaScript numbers.  The handler only takes
      absolute values and compares them, both exact on finite doubles, so
      they are rationals here (every finite double is one).
    - Indices and asset counts are integers, in [Z]. *)

From Stdlib Require Import ZArith QArith Qabs Lia Lqa Sorted Permutation.
From stdpp Require Import base strings list.

Close Scope Q_scope.
Open Scope Z_scope.

(** ** Data of the media library *)

Record Asset := mkAsset {
  asset_id : string;
  asset_uri : string;
  creationTime : Z
}.

Record Album := mkAlbum {
  album_id : string;
  title : string
}.

#[global] Instance Asset_eq_dec : EqDecision Asset.
Proof. solve_decision. Defined.

#[global] Instance Album_eq_dec : EqDecision Album.
Proof. solve_decision. Defined.

(** [{ ...album, assetCount: assets.totalCount }] *)
Record AlbumWithCount := mkAlbumWithCount {
  album_of : Album;
  assetCount : Z
}.

(** The [status] field of a permission response. *)
Inductive PermissionStatus := granted | denied | undetermined.

#[global] Instance PermissionStatus_eq_dec : EqDecision PermissionStatus.
Proof. solve_decision. Defined.

Inductive MediaType := photo | video | audio | unknown.
Inductive SortByKey := SortBy_creationTime | SortBy_modificationTime.

(** The options object of [getAssetsAsync]; an absent field is [None]. *)
Record AssetsOptions := mkAssetsOptions {
  opt_album : string;
  opt_mediaType : option MediaType;
  opt_first : option Z;
  opt_sortBy : list SortByKey
}.

(** The page [getAssetsAsync] resolves to. *)
Record PagedInfo := mkPagedInfo {
  assets : list Asset;
  totalCount : Z
}.

(** A thrown value. *)
Definition JsError := string.

(** How a promise settles. *)
Inductive Completion (A : Type) :=
| Resolved (a : A)
| Rejected (e : JsError).
Arguments Resolved {A} a.
Arguments Rejected {A} e.

(** ** The media-library service

    Each operation takes the library and returns how the promise settles
    together with the library afterwards.  [getAlbumAsync] resolves to
    [null] ([None]) when no album has the name. *)
Class MediaLibraryService (L : Type) := {
  requestPermissionsAsync : L -> Completion PermissionStatus * L;
  getAlbumsAsync : L -> Completion (list Album) * L;
  getAssetsAsync : AssetsOptions -> L -> Completion PagedInfo * L;
  getAlbumAsync : string -> L -> Completion (option Album) * L;
  createAlbumAsync : string -> Asset -> bool -> L -> Completion (option Album) * L;
  addAssetsToAlbumAsync : list Asset -> Album -> bool -> L -> Completion bool * L
}.

(** The calls a component issues, in the order issued. *)
Inductive Call :=
| Call_requestPermissions
| Call_getAlbums
| Call_getAssets (options : AssetsOptions)
| Call_getAlbum (name : string)
| Call_createAlbum (name : string) (asset : Asset) (copy : bool)
| Call_addAssetsToAlbum (items : list Asset) (album : Album) (copy : bool).

(** A call that changes the media library. *)
Definition is_mutation (c : Call) : bool :=
  match c with
  | Call_createAlbum _ _ _ | Call_addAssetsToAlbum _ _ _ => true
  | _ => false
  end.

(** The lines written to the console, by the statement that writes them. *)
Inductive ConsoleEntry :=
| log_permission_denied
| log_photos (ps : list Asset)
| error_no_photo
| log_album_not_found (targetAlbum : string)
| log_album_created (targetAlbum : string)
| log_photo_added (targetAlbum : string)
| error_managing_photo (error : JsError).

(** ** The world an async function runs in *)

Record World (S L : Type) := mkWorld {
  component : S;
  service : L;
  calls : list Call;
  console : list ConsoleEntry
}.
Arguments mkWorld {S L} _ _ _ _.
Arguments component {S L} _.
Arguments service {S L} _.
Arguments calls {S L} _.
Arguments console {S L} _.

Definition M (S L A : Type) : Type := World S L -> Completion A * World S L.

Definition ret {S L A} (a : A) : M S L A := fun w => (Resolved a, w).

Definition bind {S L A B} (m : M S L A) (k : A -> M S L B) : M S L B :=
  fun w =>
    match m w with
    | (Resolved a, w') => k a w'
    | (Rejected e, w') => (Rejected e, w')
    end.

Definition throw {S L A} (e : JsError) : M S L A := fun w => (Rejected e, w).

(** [try { body } catch (error) { handler }] *)
Definition try_catch {S L A} (body : M S L A) (handler : JsError -> M S L A)
  : M S L A :=
  fun w =>
    match body w with
    | (Resolved a, w') => (Resolved a, w')
    | (Rejected e, w') => handler e w'
    end.

Notation "x <- m ;; k" := (bind m (fun x => k))
  (at level 100, m at next level, right associativity).
Notation "m ;;; k" := (bind m (fun _ => k))
  (at level 100, right associativity).

(** A state setter: replaces the component's state cell. *)
Definition setState {S L} (f : S -> S) : M S L unit :=
  fun w => (Resolved tt, mkWorld (f (component w)) (service w) (calls w) (console w)).

Definition console_write {S L} (entry : ConsoleEntry) : M S L unit :=
  fun w => (Resolved tt,
            mkWorld (component w) (service w) (calls w) (console w ++ [entry])).

(** [await op(...)]: records the call, then lets the library answer. *)
Definition await {S L A} (c : Call) (op : L -> Completion A * L) : M S L A :=
  fun w =>
    let '(r, l') := op (service w) in
    (r, mkWorld (component w) l' (calls w ++ [c]) (console w)).

(** [Promise.all(promises)]: every call has been issued by the time the
    first answer is awaited, so all of them run, in list order; the result
    is rejected when any of them is.  The reason kept here is that of the
    first rejection in list order, where the runtime keeps the first in
    time; nothing below reads the reason. *)
Fixpoint promise_all {S L A} (ps : list (M S L A)) : M S L (list A) :=
  match ps with
  | [] => ret []
  | p :: ps' =>
      fun w =>
        match p w with
        | (Resolved a, w') =>
            match promise_all ps' w' with
            | (Resolved rest, w'') => (Resolved (a :: rest), w'')
            | (Rejected e, w'') => (Rejected e, w'')
            end
        | (Rejected e, w') => (Rejected e, snd (promise_all ps' w'))
        end
  end.

(** [xs[i]] for a JavaScript array: [undefined] ([None]) out of range. *)
Definition js_index {A} (xs : list A) (i : Z) : option A :=
  if i <? 0 then None else xs !! Z.to_nat i.

(** [xs.sort(compareFn)]: the sort is stable, and [b] goes before [a] only
    when [compareFn a b] is positive. *)
Fixpoint sort_insert {A} (compareFn : A -> A -> Z) (x : A) (xs : list A) : list A :=
  match xs with
  | [] => [x]
  | y :: xs' =>
      if 0 <? compareFn x y then y :: sort_insert compareFn x xs' else x :: xs
  end.

Definition js_sort {A} (compareFn : A -> A -> Z) (xs : list A) : list A :=
  foldr (sort_insert compareFn) [] xs.

(** The comparator lets [a] stand before [b]. *)
Definition sort_before {A} (compareFn : A -> A -> Z) (a b : A) : Prop :=
  compareFn a b <= 0.

(** [x < y] on numbers. *)
Definition Qltb (x y : Q) : bool := negb (Qle_bool y x).

(** ** AlbumListScreen *)

Module AlbumListScreen.

Record State := mkState {
  albums : list AlbumWithCount;
  loading : bool
}.

(** [useState([])], [useState(true)] *)
Definition initial : State := mkState [] true.

Inductive View :=
| LoadingAlbums
| AlbumList (data : list AlbumWithCount).

Definition render (s : State) : View :=
  if loading s then LoadingAlbums else AlbumList (albums s).

(** [(a, b) => b.assetCount - a.assetCount] *)
Definition compareFn (a b : AlbumWithCount) : Z := assetCount b - assetCount a.

(** Non-increasing asset count: [a] has at least the count of [b]. *)
Definition by_count (a b : AlbumWithCount) : Prop := assetCount b <= assetCount a.

(** [{ album: album.id }] *)
Definition countOptions (album : Album) : AssetsOptions :=
  mkAssetsOptions (album_id album) None None [].

Section Effect.
Context {L : Type} `{MediaLibraryService L}.

Definition setAlbums (v : list AlbumWithCount) : M State L unit :=
  setState (fun s => mkState v (loading s)).

Definition setLoading (v : bool) : M State L unit :=
  setState (fun s => mkState (albums s) v).

(** The callback of [albums.map]; [page] is the source's local [assets]. *)
Definition withCount (album : Album) : M State L AlbumWithCount :=
  page <- await (Call_getAssets (countOptions album))
                (getAssetsAsync (countOptions album)) ;;
  ret (mkAlbumWithCount album (totalCount page)).

(** The async function run by [useEffect] on mount. *)
Definition loadAlbums : M State L unit :=
  status <- await Call_requestPermissions requestPermissionsAsync ;;
  if decide (status <> granted) then
    console_write log_permission_denied ;;;
    setLoading false
  else
    albums <- await Call_getAlbums getAlbumsAsync ;;
    albumsWithCount <- promise_all (map withCount albums) ;;
    setAlbums (js_sort compareFn albumsWithCount) ;;;
    setLoading false.

(** The component as mounted over a library [l]. *)
Definition mount (l : L) : World State L := mkWorld initial l [] [].

(** The world once the effect has settled. *)
Definition loaded (l : L) : World State L := snd (loadAlbums (mount l)).

End Effect.
End AlbumListScreen.

(** ** PhotosScreen *)

Inductive Direction := right | up | down | left.

#[global] Instance Direction_eq_dec : EqDecision Direction.
Proof. solve_decision. Defined.

Module PhotosScreen.

Record State := mkState {
  photos : list Asset;
  currentIndex : Z;
  loading : bool;
  imageLoading : bool
}.

(** [useState([])], [useState(0)], [useState(true)], [useState(true)] *)
Definition initial : State := mkState [] 0 true true.

(** What the component returns.  The photo view reads
    [photos[currentIndex].uri]; when [photos[currentIndex]] is [undefined]
    that read throws and the render has no result. *)
Inductive View :=
| LoadingPhotos
| NoPhotos
| PhotoView (overlay : bool) (uri : string) (position : Z) (total : nat).

Definition render (s : State) : option View :=
  if loading s then Some LoadingPhotos
  else if decide (length (photos s) = 0%nat) then Some NoPhotos
  else
    match js_index (photos s) (currentIndex s) with
    | Some p =>
        Some (PhotoView (imageLoading s) (asset_uri p) (currentIndex s + 1)
                        (length (photos s)))
    | None => None
    end.

(** The value the [switch] leaves in [targetAlbum]; [None] is the ['left']
    case, which returns from the handler instead. *)
Definition targetAlbum (direction : Direction) : option string :=
  match direction with
  | right => Some "likedPhotos"%string
  | up => Some "superlikedPhotos"%string
  | down => Some "toDelete"%string
  | left => None
  end.

(** [const threshold = 50] *)
Definition threshold : Q := 50%Q.

(** The direction the [onEnd] callback hands to [handleSwipe], if any: its
    branches, without the call. *)
Definition dispatched (translationX translationY : Q) : option Direction :=
  if Qltb (Qabs translationY) (Qabs translationX) then
    if Qltb threshold translationX then Some right
    else if Qltb translationX (- threshold)%Q then Some left
    else None
  else
    if Qltb threshold translationY then Some down
    else if Qltb translationY (- threshold)%Q then Some up
    else None.

(** The state cell [c] after [moveToNextPhoto] of the render [s] has run:
    its two setters, without the monad. *)
Definition moved (s c : State) : State :=
  if currentIndex s <? Z.of_nat (length (photos s)) - 1 then
    mkState (photos c) (currentIndex s + 1) (loading c) true
  else c.

(** [{ album: albumId, mediaType: 'photo', first: 1000, sortBy: [creationTime] }] *)
Definition photoOptions (albumId : string) : AssetsOptions :=
  mkAssetsOptions albumId (Some photo) (Some 1000) [SortBy_creationTime].

Section Handlers.
Context {L : Type} `{MediaLibraryService L}.

Definition setPhotos (v : list Asset) : M State L unit :=
  setState (fun s => mkState v (currentIndex s) (loading s) (imageLoading s)).

Definition setCurrentIndex (v : Z) : M State L unit :=
  setState (fun s => mkState (photos s) v (loading s) (imageLoading s)).

Definition setLoading (v : bool) : M State L unit :=
  setState (fun s => mkState (photos s) (currentIndex s) v (imageLoading s)).

Definition setImageLoading (v : bool) : M State L unit :=
  setState (fun s => mkState (photos s) (currentIndex s) (loading s) v).

(** The async function run by [useEffect] for [albumId]; [s] is the render
    it closes over, [page] the source's local [assets]. *)
Definition loadPhotos (albumId : string) (s : State) : M State L unit :=
  page <- await (Call_getAssets (photoOptions albumId))
                (getAssetsAsync (photoOptions albumId)) ;;
  setPhotos (rev (assets page)) ;;;
  console_write (log_photos (photos s)) ;;;
  setLoading false.

Definition moveToNextPhoto (s : State) : M State L unit :=
  if currentIndex s <? Z.of_nat (length (photos s)) - 1 then
    setCurrentIndex (currentIndex s + 1) ;;;
    setImageLoading true
  else ret tt.

Definition handleSwipe (s : State) (direction : Direction) : M State L unit :=
  let currentPhoto := js_index (photos s) (currentIndex s) in
  match targetAlbum direction with
  | None => moveToNextPhoto s
  | Some targetAlbum =>
      match currentPhoto with
      | None => console_write error_no_photo
      | Some currentPhoto =>
          try_catch
            (album <- await (Call_getAlbum targetAlbum) (getAlbumAsync targetAlbum) ;;
             match album with
             | None =>
                 console_write (log_album_not_found targetAlbum) ;;;
                 album <- await (Call_createAlbum targetAlbum currentPhoto false)
                                (createAlbumAsync targetAlbum currentPhoto false) ;;
                 match album with
                 | None => throw "Failed to create the album."%string
                 | Some _ => console_write (log_album_created targetAlbum)
                 end
             | Some album =>
                 await (Call_addAssetsToAlbum [currentPhoto] album false)
                       (addAssetsToAlbumAsync [currentPhoto] album false) ;;;
                 console_write (log_photo_added targetAlbum)
             end)
            (fun error => console_write (error_managing_photo error)) ;;;
          moveToNextPhoto s
      end
  end.

(** The [onEnd] callback of the pan gesture. *)
Definition onEnd (s : State) (translationX translationY : Q) : M State L unit :=
  if Qltb (Qabs translationY) (Qabs translationX) then
    if Qltb threshold translationX then handleSwipe s right
    else if Qltb translationX (- threshold)%Q then handleSwipe s left
    else ret tt
  else
    if Qltb threshold translationY then handleSwipe s down
    else if Qltb translationY (- threshold)%Q then handleSwipe s up
    else ret tt.

(** [onLoad] of the image. *)
Definition onLoad : M State L unit := setImageLoading false.

Definition mount (l : L) : World State L := mkWorld initial l [] [].

End Handlers.
End PhotosScreen.

(** ** Sessions of PhotosScreen

    What happens to a mounted [PhotosScreen]: its effect settles, and from
    then on the user pans and releases, the image finishes loading, and the
    media library may be changed from outside the application.  Gesture and
    image events reach the component only while the photo view is what it
    renders; the handler that runs is the one of the current render. *)

Module Session.
Import PhotosScreen.

Inductive Event (L : Type) :=
| pan_released (translationX translationY : Q)
| image_loaded
| library_changed (l : L).
Arguments pan_released {L} _ _.
Arguments image_loaded {L}.
Arguments library_changed {L} _.

Definition interactive (s : State) : bool :=
  match render s with
  | Some (PhotoView _ _ _ _) => true
  | _ => false
  end.

Section Run.
Context {L : Type} `{MediaLibraryService L}.

Definition step (w : World State L) (e : Event L) : World State L :=
  match e with
  | pan_released tx ty =>
      if interactive (component w) then snd (onEnd (component w) tx ty w) else w
  | image_loaded =>
      if interactive (component w) then snd (onLoad w) else w
  | library_changed l => mkWorld (component w) l (calls w) (console w)
  end.

Definition run (w : World State L) (events : list (Event L)) : World State L :=
  foldl step w events.

(** The component right after its effect has settled. *)
Definition opened (albumId : string) (l : L) : World State L :=
  snd (loadPhotos albumId initial (mount l)).

Definition session (albumId : string) (l : L) (events : list (Event L))
  : World State L :=
  run (opened albumId l) events.

(** One pan release handled by the current render. *)
Definition gesture (translationX translationY : Q) (w : World State L)
  : World State L :=
  snd (onEnd (component w) translationX translationY w).

(** One swipe in a given direction handled by the current render. *)
Definition swipe (w : World State L) (direction : Direction) : World State L :=
  snd (handleSwipe (component w) direction w).

(** Swipes handled one after the other, each by the render current then. *)
Definition swipes (w : World State L) (directions : list Direction)
  : World State L :=
  foldl swipe w directions.

(** What holds of the state cell throughout a session. *)
Definition index_in_range (s : State) : Prop :=
  0 <= currentIndex s /\
  (photos s = [] -> currentIndex s = 0) /\
  (photos s <> [] -> currentIndex s < Z.of_nat (length (photos s))) /\
  (loading s = true -> photos s = []).

(** What holds of the world throughout a session: the index is in range
    and the handler never met a missing current photo. *)
Definition sound (w : World State L) : Prop :=
  index_in_range (component w) /\ error_no_photo ∉ console w.

End Run.
End Session.

(** ** Statements in the words of the specification *)

Module Spec.
Import PhotosScreen.

(** The states of the review state machine. *)
Inductive Phase :=
| Loading
| Empty
| Reviewing (index : Z).

Definition phase (s : State) : Phase :=
  if loading s then Loading
  else match photos s with
       | [] => Empty
       | _ :: _ => Reviewing (currentIndex s)
       end.

(** A release exceeds the threshold when it does so on either axis. *)
Definition exceeds_threshold (dx dy : Q) : Prop :=
  (threshold < Qabs dx \/ threshold < Qabs dy)%Q.

(** Gesture-to-action dispatch as the specification words it: the axis
    with the larger absolute displacement is chosen; when that displacement
    exceeds the threshold its sign selects the direction.  With equal
    absolute displacements no axis is the larger one and the words choose
    nothing. *)
Definition dispatch_spec (dx dy : Q) : option Direction :=
  match Qcompare (Qabs dx) (Qabs dy) with
  | Gt =>
      if Qltb 50 (Qabs dx) then Some (if Qltb 0 dx then right else left)
      else None
  | Lt =>
      if Qltb 50 (Qabs dy) then Some (if Qltb 0 dy then down else up)
      else None
  | Eq => None
  end.

(** The media-library calls of one classification, in order: look the
    target album up; create it seeded with the photo if absent, otherwise
    add the photo to the album found.  A lookup that fails ends there. *)
Definition classification_calls {L} `{MediaLibraryService L}
    (target : string) (p : Asset) (l : L) : list Call :=
  match fst (getAlbumAsync target l) with
  | Resolved None => [Call_getAlbum target; Call_createAlbum target p false]
  | Resolved (Some album) =>
      [Call_getAlbum target; Call_addAssetsToAlbum [p] album false]
  | Rejected _ => [Call_getAlbum target]
  end.

(** The assets a call hands to the library for filing. *)
Definition submitted (c : Call) : list Asset :=
  match c with
  | Call_createAlbum _ asset _ => [asset]
  | Call_addAssetsToAlbum items _ _ => items
  | _ => []
  end.

Definition is_lookup (c : Call) : bool :=
  match c with
  | Call_getAlbum _ => true
  | _ => false
  end.

End Spec.

(** ** Sessions with overlapping handlers

    [handleSwipe] is suspended at each [await]; while it waits the user can
    release another pan, which the same or a later render handles.  Here a
    handler is cut at its awaits: [start] runs it up to the lookup, [resume]
    from one answer to the next await or to its end, and suspended handlers
    resume in any order between other events.  A suspended handler keeps
    the render [s] it closed over. *)

Module Interleaved.
Import PhotosScreen Session.

Inductive Task :=
| at_lookup (s : State) (targetAlbum : string) (currentPhoto : Asset)
            (answer : Completion (option Album))
| at_create (s : State) (targetAlbum : string) (answer : Completion (option Album))
| at_add (s : State) (targetAlbum : string) (answer : Completion bool).

(** The render a suspended handler closed over. *)
Definition closure (task : Task) : State :=
  match task with
  | at_lookup s _ _ _ | at_create s _ _ | at_add s _ _ => s
  end.

Inductive Event (L : Type) :=
| released (translationX translationY : Q)
| resumed (k : nat)
| image_loaded
| library_changed (l : L).
Arguments released {L} _ _.
Arguments resumed {L} _.
Arguments image_loaded {L}.
Arguments library_changed {L} _.

Record System (L : Type) := mkSystem {
  world : World State L;
  pending : list Task
}.
Arguments mkSystem {L} _ _.
Arguments world {L} _.
Arguments pending {L} _.

Section Run.
Context {L : Type} `{MediaLibraryService L}.

(** The [catch] block and what follows the [try]. *)
Definition failed (s : State) (error : JsError) : M State L unit :=
  console_write (error_managing_photo error) ;;;
  moveToNextPhoto s.

(** What follows a branch of the [try] that went through. *)
Definition succeeded (s : State) (entry : ConsoleEntry) : M State L unit :=
  console_write entry ;;;
  moveToNextPhoto s.

(** [handleSwipe] up to its first [await]. *)
Definition start (s : State) (direction : Direction) (w : World State L)
  : World State L * option Task :=
  match targetAlbum direction with
  | None => (snd (moveToNextPhoto s w), None)
  | Some targetAlbum =>
      match js_index (photos s) (currentIndex s) with
      | None => (snd (console_write error_no_photo w), None)
      | Some currentPhoto =>
          let '(answer, w') :=
            await (Call_getAlbum targetAlbum) (getAlbumAsync targetAlbum) w in
          (w', Some (at_lookup s targetAlbum currentPhoto answer))
      end
  end.

(** [handleSwipe] from an answer to its next [await], or to its end. *)
Definition resume (task : Task) (w : World State L)
  : World State L * option Task :=
  match task with
  | at_lookup s targetAlbum currentPhoto (Resolved None) =>
      let '(_, w1) := console_write (log_album_not_found targetAlbum) w in
      let '(answer, w2) :=
        await (Call_createAlbum targetAlbum currentPhoto false)
              (createAlbumAsync targetAlbum currentPhoto false) w1 in
      (w2, Some (at_create s targetAlbum answer))
  | at_lookup s targetAlbum currentPhoto (Resolved (Some album)) =>
      let '(answer, w1) :=
        await (Call_addAssetsToAlbum [currentPhoto] album false)
              (addAssetsToAlbumAsync [currentPhoto] album false) w in
      (w1, Some (at_add s targetAlbum answer))
  | at_create s targetAlbum (Resolved (Some _)) =>
      (snd (succeeded s (log_album_created targetAlbum) w), None)
  | at_create s targetAlbum (Resolved None) =>
      (snd (failed s "Failed to create the album."%string w), None)
  | at_add s targetAlbum (Resolved _) =>
      (snd (succeeded s (log_photo_added targetAlbum) w), None)
  | at_lookup s _ _ (Rejected error)
  | at_create s _ (Rejected error)
  | at_add s _ (Rejected error) =>
      (snd (failed s error w), None)
  end.

(** A started handler resumed at once, to its end. *)
Definition to_completion (r : World State L * option Task) : World State L :=
  match r with
  | (w, None) => w
  | (w, Some task) =>
      match resume task w with
      | (w1, None) => w1
      | (w1, Some task1) => fst (resume task1 w1)
      end
  end.

Definition option_task (o : option Task) : list Task :=
  match o with
  | Some task => [task]
  | None => []
  end.

Definition step (σ : System L) (e : Event L) : System L :=
  match e with
  | released tx ty =>
      if interactive (component (world σ)) then
        match dispatched tx ty with
        | Some d =>
            let '(w', o) := start (component (world σ)) d (world σ) in
            mkSystem w' (pending σ ++ option_task o)
        | None => σ
        end
      else σ
  | resumed k =>
      match pending σ !! k with
      | Some task =>
          let '(w', o) := resume task (world σ) in
          mkSystem w' (delete k (pending σ) ++ option_task o)
      | None => σ
      end
  | image_loaded =>
      if interactive (component (world σ))
      then mkSystem (snd (onLoad (world σ))) (pending σ)
      else σ
  | library_changed l =>
      mkSystem (mkWorld (component (world σ)) l (calls (world σ)) (console (world σ)))
               (pending σ)
  end.

Definition session (albumId : string) (l : L) (events : list (Event L))
  : System L :=
  foldl step (mkSystem (opened albumId l) []) events.

(** What holds throughout: the world is sound and every suspended handler
    closed over a render of the same photo sequence with its own index in
    range. *)
Definition sound_system (σ : System L) : Prop :=
  sound (world σ) /\
  Forall (fun task =>
            photos (closure task) = photos (component (world σ))
            /\ index_in_range (closure task))
         (pending σ).

End Run.
End Interleaved.

(** ** A device library to run the components on

    Albums in enumeration order, each with its assets.  When [available]
    is off every operation rejects. *)

Module Device.

Record Library := mkLibrary {
  permission : PermissionStatus;
  albums : list (Album * list Asset);
  available : bool
}.

Definition unavailable : JsError := "media library unavailable"%string.

Definition guarded {A} (l : Library) (r : A) (l' : Library)
  : Completion A * Library :=
  if available l then (Resolved r, l') else (Rejected unavailable, l).

Definition find_by (f : Album -> string) (key : string) (l : Library)
  : option (Album * list Asset) :=
  List.find (fun e => bool_decide (f (fst e) = key)) (albums l).

Definition page_of (options : AssetsOptions) (l : Library) : PagedInfo :=
  match find_by album_id (opt_album options) l with
  | Some (_, items) =>
      mkPagedInfo
        (match opt_first options with
         | Some n => take (Z.to_nat n) items
         | None => items
         end)
        (Z.of_nat (length items))
  | None => mkPagedInfo [] 0
  end.

Definition add_to (album : Album) (items : list Asset) (l : Library) : Library :=
  mkLibrary (permission l)
    (map (fun e => if decide (fst e = album) then (fst e, snd e ++ items) else e)
         (albums l))
    (available l).

Definition create (name : string) (asset : Asset) (l : Library) : Library :=
  mkLibrary (permission l) (albums l ++ [(mkAlbum name name, [asset])]) (available l).

#[global] Instance library_service : MediaLibraryService Library := {
  requestPermissionsAsync l := guarded l (permission l) l;
  getAlbumsAsync l := guarded l (map fst (albums l)) l;
  getAssetsAsync options l := guarded l (page_of options l) l;
  getAlbumAsync name l := guarded l (fst <$> find_by title name l) l;
  createAlbumAsync name asset copy l :=
    guarded l (Some (mkAlbum name name)) (create name asset l);
  addAssetsToAlbumAsync items album copy l :=
    guarded l true (add_to album items l)
}.

(** The assets filed under the album titled [name]. *)
Definition filed (name : string) (l : Library) : list Asset :=
  match find_by title name l with
  | Some (_, items) => items
  | None => []
  end.

Definition photo1 : Asset := mkAsset "1" "file:///1.jpg" 100.
Definition photo2 : Asset := mkAsset "2" "file:///2.jpg" 200.
Definition photo3 : Asset := mkAsset "3" "file:///3.jpg" 300.

Definition camera : Album := mkAlbum "a1" "Camera".
Definition screenshots : Album := mkAlbum "a2" "Screenshots".
Definition downloads : Album := mkAlbum "a3" "Downloads".

Definition phone : Library :=
  mkLibrary granted
    [(camera, [photo1; photo2]);
     (screenshots, [photo1; photo2; photo3]);
     (downloads, [])]
    true.

Definition locked_phone : Library :=
  mkLibrary denied (albums phone) true.

Definition broken_phone : Library :=
  mkLibrary granted (albums phone) false.

End Device.

(** ** Runs on the device *)

Module Runs.
Import PhotosScreen Session.

(** The album "Camera" just opened: two photos, the first one shown. *)
Definition first_shown : World State Device.Library :=
  session "a1" Device.phone [].

(** The same album after one skip: the last photo is shown. *)
Definition last_shown : World State Device.Library :=
  session "a1" Device.phone [pan_released (-60) 0].

(** A session that likes, skips, deletes and super-likes. *)
Definition busy : World State Device.Library :=
  session "a2" Device.phone
    [pan_released 80 3; image_loaded; pan_released (-75) 20;
     pan_released 10 90; pan_released 5 (-61); pan_released 70 0].

(** Three photos; a like whose library calls are still pending while the
    user skips twice, and which then runs to its end. *)
Definition overtaken : Interleaved.System Device.Library :=
  Interleaved.session "a2" Device.phone
    [Interleaved.released 60 0;
     Interleaved.released (-60) 0;
     Interleaved.released (-60) 0;
     Interleaved.resumed 0;
     Interleaved.resumed 0].

Definition counted : list AlbumWithCount :=
  [mkAlbumWithCount Device.camera 2;
   mkAlbumWithCount Device.screenshots 3;
   mkAlbumWithCount Device.downloads 0].

End Runs.

(** ** The navigation shell

    [App] registers two screens on a stack navigator.  A row of the album
    list navigates to 'Photos' with the album's id and title as route
    parameters; the 'Photos' screen takes its header title from the
    parameters and runs its effect for the [albumId] among them. *)

Module App.

(** [{ albumId: item.id, title: item.title }] *)
Record RouteParams := mkRouteParams {
  albumId : string;
  route_title : string
}.

(** [navigation.navigate(name, params)] *)
Inductive Navigation :=
| navigate (name : string) (params : RouteParams).

(** [onPress] of the row rendered for [item]. *)
Definition onPress (item : AlbumWithCount) : Navigation :=
  navigate "Photos"
    (mkRouteParams (album_id (album_of item)) (title (album_of item))).

(** [keyExtractor] *)
Definition keyExtractor (item : AlbumWithCount) : string :=
  album_id (album_of item).

(** [options={({ route }) => ({ title: route.params.title })}] *)
Definition photosOptions (params : RouteParams) : string := route_title params.

(** A screen on top of the stack, with its header title. *)
Inductive Screen (L : Type) :=
| Albums (header : string) (w : World AlbumListScreen.State L)
| Photos (header : string) (w : World PhotosScreen.State L).
Arguments Albums {L} _ _.
Arguments Photos {L} _ _.

Section Shell.
Context {L : Type} `{MediaLibraryService L}.

(** The screen a navigation puts on top, once its effect has settled over
    the library [l]; no screen is registered under another name. *)
Definition present (action : Navigation) (l : L) : option (Screen L) :=
  match action with
  | navigate name params =>
      if decide (name = "Albums"%string) then
        Some (Albums "Albums" (AlbumListScreen.loaded l))
      else if decide (name = "Photos"%string) then
        Some (Photos (photosOptions params) (Session.opened (albumId params) l))
      else None
  end.

End Shell.
End App.

(** ** Filing, in the words of the claims

    What a classification does to the library, which album each direction
    files into, which direction a release selects once ties are settled,
    and the counts the library answers. *)

Module Filing.

(** Right likes, up super-likes, down marks for deletion, left skips. *)
Definition action_album (direction : Direction) : option string :=
  match direction with
  | right => Some "likedPhotos"%string
  | up => Some "superlikedPhotos"%string
  | down => Some "toDelete"%string
  | left => None
  end.

(** The dispatch with the tie settled: the horizontal axis is chosen when
    its absolute displacement is strictly the larger, the vertical axis
    otherwise; when the chosen displacement exceeds the threshold its sign
    selects the direction. *)
Definition dispatch_by_axis (dx dy : Q) : option Direction :=
  match Qcompare (Qabs dx) (Qabs dy) with
  | Gt =>
      if Qltb 50 (Qabs dx) then Some (if Qltb 0 dx then right else left)
      else None
  | _ =>
      if Qltb 50 (Qabs dy) then Some (if Qltb 0 dy then down else up)
      else None
  end.

(** The album a release files into, if any. *)
Definition chosen_album (dx dy : Q) : option string :=
  match dispatch_by_axis dx dy with
  | Some direction => action_album direction
  | None => None
  end.

Section Library.
Context {L : Type} `{MediaLibraryService L}.

(** The library after one classification: after the lookup, and after the
    creation seeded with the photo when the lookup found no album, or the
    addition of the photo to the album found. *)
Definition classification_library (target : string) (p : Asset) (l : L) : L :=
  match getAlbumAsync target l with
  | (Resolved None, l1) => snd (createAlbumAsync target p false l1)
  | (Resolved (Some album), l1) => snd (addAssetsToAlbumAsync [p] album false l1)
  | (Rejected _, l1) => l1
  end.

(** The library after classifications of the same photo, one per
    direction, in turn. *)
Definition classification_libraries (p : Asset) (directions : list Direction)
    (l : L) : L :=
  foldl (fun l direction =>
           match action_album direction with
           | Some target => classification_library target p l
           | None => l
           end)
        l directions.

(** The calls of a release: those of one classification when there is an
    album to file into and a current photo, none otherwise. *)
Definition filing_calls (target : option string) (current : option Asset)
    (l : L) : list Call :=
  match target, current with
  | Some t, Some p => Spec.classification_calls t p l
  | _, _ => []
  end.

(** The library after a release. *)
Definition filing_library (target : option string) (current : option Asset)
    (l : L) : L :=
  match target, current with
  | Some t, Some p => classification_library t p l
  | _, _ => l
  end.

(** The state cell after a release that selects [direction] (or none),
    handled by the render [s]: the next photo, except for a release that
    selects nothing and for a classification without a current photo. *)
Definition after_release (direction : option Direction) (s : PhotosScreen.State)
  : PhotosScreen.State :=
  match direction with
  | None => s
  | Some d =>
      match action_album d,
            js_index (PhotosScreen.photos s) (PhotosScreen.currentIndex s) with
      | Some _, None => s
      | _, _ => PhotosScreen.moved s s
      end
  end.

(** The albums with the counts the library answers, asked album by album
    in order; nothing when an answer is a rejection. *)
Fixpoint library_counts (albums : list Album) (l : L)
  : option (list AlbumWithCount) :=
  match albums with
  | [] => Some []
  | album :: rest =>
      match getAssetsAsync (AlbumListScreen.countOptions album) l with
      | (Resolved page, l1) =>
          match library_counts rest l1 with
          | Some counted => Some (mkAlbumWithCount album (totalCount page) :: counted)
          | None => None
          end
      | (Rejected _, _) => None
      end
  end.

(** A call of the album-list effect rejects: the permission request, or,
    with permission granted, the enumeration or one of the count queries. *)
Definition some_call_rejects (l : L) : Prop :=
  (exists e l1, requestPermissionsAsync l = (Rejected e, l1))
  \/ (exists l1,
        requestPermissionsAsync l = (Resolved granted, l1)
        /\ ((exists e l2, getAlbumsAsync l1 = (Rejected e, l2))
            \/ (exists albums l2,
                  getAlbumsAsync l1 = (Resolved albums, l2)
                  /\ library_counts albums l2 = None))).

End Library.
End Filing.

(** ** Shapes of what a handler leaves behind *)

Module Shape.
Import PhotosScreen Session.

(** The calls [handleSwipe] may issue for the render [s] and a direction:
    the lookup of the direction's album, its creation seeded with the
    current photo, or the addition of just that photo; never a copy. *)
Definition allowed_call (s : State) (direction : Direction) (c : Call) : Prop :=
  match c with
  | Call_getAlbum name => targetAlbum direction = Some name
  | Call_createAlbum name asset copy =>
      targetAlbum direction = Some name
      /\ js_index (photos s) (currentIndex s) = Some asset
      /\ copy = false
  | Call_addAssetsToAlbum items _ copy =>
      (exists asset,
          js_index (photos s) (currentIndex s) = Some asset /\ items = [asset])
      /\ copy = false
  | _ => False
  end.

(** The console lines of one classification into [targetAlbum], by the
    answer of the lookup: an album found gives the line for the photo added
    or one error; no album found gives the not-found line and then the line
    for the album created or one error; a rejected lookup gives its error. *)
Definition outcome_for (targetAlbum : string)
    (answer : Completion (option Album)) (entries : list ConsoleEntry) : Prop :=
  match answer with
  | Resolved (Some _) =>
      entries = [log_photo_added targetAlbum]
      \/ exists error, entries = [error_managing_photo error]
  | Resolved None =>
      entries = [log_album_not_found targetAlbum; log_album_created targetAlbum]
      \/ exists error,
           entries = [log_album_not_found targetAlbum; error_managing_photo error]
  | Rejected error => entries = [error_managing_photo error]
  end.

Definition is_pan {L} (e : Event L) : bool :=
  match e with
  | pan_released _ _ => true
  | _ => false
  end.

(** The number of pan releases among the events. *)
Definition pans {L} (events : list (Event L)) : nat :=
  length (List.filter is_pan events).

(** The calls a review session of the album [albumId] over the sequence
    [photos] may have issued: the load query, lookups of the three target
    albums, and creations or additions that file one photo of the sequence,
    never as a copy. *)
Definition session_call (albumId : string) (photos : list Asset) (c : Call)
  : Prop :=
  match c with
  | Call_getAssets options => options = photoOptions albumId
  | Call_getAlbum name =>
      name ∈ ["likedPhotos"; "superlikedPhotos"; "toDelete"]%string
  | Call_createAlbum name asset copy =>
      name ∈ ["likedPhotos"; "superlikedPhotos"; "toDelete"]%string
      /\ asset ∈ photos /\ copy = false
  | Call_addAssetsToAlbum items _ copy =>
      (exists asset, items = [asset] /\ asset ∈ photos) /\ copy = false
  | _ => False
  end.

(** A pan release that exceeds the threshold. *)
Definition is_swipe {L} (e : Event L) : Prop :=
  match e with
  | pan_released tx ty => Spec.exceeds_threshold tx ty
  | _ => False
  end.

(** The count queries of the album list, one per album. *)
Definition count_queries (albums : list Album) : list Call :=
  map (fun album => Call_getAssets (AlbumListScreen.countOptions album)) albums.

End Shape.

(** ** A device that refuses to file

    The device library behind a seal: reads go through, an album creation
    answers [null] and an addition rejects. *)

Module SealedDevice.

Record Library := seal { inner : Device.Library }.

Definition read_only : JsError := "media library is read-only"%string.

Definition through {A} (r : Completion A * Device.Library)
  : Completion A * Library :=
  (fst r, seal (snd r)).

#[global] Instance sealed_service : MediaLibraryService Library := {
  requestPermissionsAsync l := through (requestPermissionsAsync (inner l));
  getAlbumsAsync l := through (getAlbumsAsync (inner l));
  getAssetsAsync options l := through (getAssetsAsync options (inner l));
  getAlbumAsync name l := through (getAlbumAsync name (inner l));
  createAlbumAsync name asset copy l := (Resolved None, l);
  addAssetsToAlbumAsync items album copy l := (Rejected read_only, l)
}.

End SealedDevice.

(** ** More runs on the device *)

Module MoreRuns.
Import PhotosScreen Session.

(** "Camera" opened, then the library goes away. *)
Definition cut_off : World State Device.Library :=
  session "a1" Device.phone [library_changed Device.broken_phone].

(** "Camera" opened on the sealed device. *)
Definition sealed : World State SealedDevice.Library :=
  session "a1" (SealedDevice.seal Device.phone) [].

(** "Screenshots" with a skip, a like and the image loaded. *)
Definition events : list (Event Device.Library) :=
  [pan_released (-80) 0; pan_released 90 10; image_loaded].

(** A like suspended at its lookup since index 0, resumed at index 2. *)
Definition late : Interleaved.Task :=
  Interleaved.at_add
    (mkState [Device.photo3; Device.photo2; Device.photo1] 0 false false)
    "likedPhotos" (Resolved true).

Definition ahead : World State Device.Library :=
  mkWorld (mkState [Device.photo3; Device.photo2; Device.photo1] 2 false false)
          Device.phone [] [].

(** Albums with equal counts. *)
Definition ties : list AlbumWithCount :=
  [mkAlbumWithCount Device.camera 2;
   mkAlbumWithCount Device.screenshots 3;
   mkAlbumWithCount Device.downloads 2].

End MoreRuns.

(** * Facts *)

(** ** Comparisons of numbers *)

Lemma Qltb_lt (x y : Q) : Qltb x y = true <-> (x < y)%Q.
Proof.
  unfold Qltb. rewrite negb_true_iff. split.
  - intros Hb. apply Qnot_le_lt. intros Hle.
    apply Qle_bool_iff in Hle. congruence.
  - intros Hlt. destruct (Qle_bool y x) eqn:E; [|reflexivity].
    apply Qle_bool_iff in E. exfalso. eapply Qlt_not_le; eauto.
Qed.

Lemma Qltb_ge (x y : Q) : Qltb x y = false <-> (y <= x)%Q.
Proof.
  unfold Qltb. rewrite negb_false_iff. apply Qle_bool_iff.
Qed.

Lemma Qabs_cases (x : Q) :
  ((0 <= x)%Q /\ (Qabs x == x)%Q) \/ ((x <= 0)%Q /\ (Qabs x == - x)%Q).
Proof.
  destruct (Qlt_le_dec x 0) as [Hneg|Hpos].
  - right. split; [apply Qlt_le_weak; exact Hneg|].
    apply Qabs_neg. apply Qlt_le_weak; exact Hneg.
  - left. split; [exact Hpos|]. apply Qabs_pos; exact Hpos.
Qed.

(** Turns every comparison met in the goal into an order hypothesis. *)
Ltac q_branch :=
  repeat match goal with
  | |- context [Qltb ?a ?b] =>
      let E := fresh "E" in
      destruct (Qltb a b) eqn:E;
      [apply Qltb_lt in E | apply Qltb_ge in E]
  end.

(** Splits the absolute value of [x] by the sign of [x]. *)
Ltac q_abs x :=
  let Hs := fresh "Hs" in
  let Ha := fresh "Ha" in
  destruct (Qabs_cases x) as [[Hs Ha]|[Hs Ha]].

#[global] Instance Qltb_Proper : Proper (Qeq ==> Qeq ==> eq) Qltb.
Proof.
  intros x x' Hx y y' Hy. unfold Qltb. f_equal.
  apply Qleb_comp; assumption.
Qed.

(** The dispatch depends on the two translations as numbers only. *)
#[global] Instance dispatched_Proper :
  Proper (Qeq ==> Qeq ==> eq) PhotosScreen.dispatched.
Proof.
  intros x x' Hx y y' Hy. unfold PhotosScreen.dispatched.
  rewrite (Qltb_Proper _ _ (Qabs_wd _ _ Hy) _ _ (Qabs_wd _ _ Hx)).
  rewrite (Qltb_Proper _ _ (Qeq_refl PhotosScreen.threshold) _ _ Hx).
  rewrite (Qltb_Proper _ _ Hx _ _ (Qeq_refl (- PhotosScreen.threshold)%Q)).
  rewrite (Qltb_Proper _ _ (Qeq_refl PhotosScreen.threshold) _ _ Hy).
  rewrite (Qltb_Proper _ _ Hy _ _ (Qeq_refl (- PhotosScreen.threshold)%Q)).
  reflexivity.
Qed.

(** ** The handlers of PhotosScreen, run *)

Import PhotosScreen Session Spec.

Section HandlerFacts.
Context {L : Type} `{MediaLibraryService L}.
Implicit Types (s c : State) (w : World State L) (d : Direction).

Lemma onEnd_dispatched s tx ty :
  onEnd s tx ty =
  match dispatched tx ty with
  | Some d => handleSwipe s d
  | None => ret tt
  end.
Proof.
  unfold onEnd, dispatched.
  repeat match goal with
  | |- context [Qltb ?a ?b] => destruct (Qltb a b)
  end; reflexivity.
Qed.

Lemma moveToNextPhoto_run s w :
  moveToNextPhoto s w =
  (Resolved tt, mkWorld (moved s (component w)) (service w) (calls w) (console w)).
Proof.
  unfold moveToNextPhoto, moved.
  destruct (currentIndex s <? Z.of_nat (length (photos s)) - 1).
  - reflexivity.
  - destruct w; reflexivity.
Qed.

Lemma handleSwipe_left s w :
  handleSwipe s left w = moveToNextPhoto s w.
Proof. reflexivity. Qed.

(** Without a current photo the handler writes its error and returns. *)
Lemma handleSwipe_no_photo s d t w :
  targetAlbum d = Some t ->
  js_index (photos s) (currentIndex s) = None ->
  handleSwipe s d w =
  (Resolved tt,
   mkWorld (component w) (service w) (calls w) (console w ++ [error_no_photo])).
Proof.
  intros Ht Hp. unfold handleSwipe. rewrite Ht, Hp. reflexivity.
Qed.

(** With a current photo the handler issues the calls of one
    classification, swallows any failure, and moves on. *)
Lemma handleSwipe_classify s d t p w :
  targetAlbum d = Some t ->
  js_index (photos s) (currentIndex s) = Some p ->
  exists l' entries,
    handleSwipe s d w =
    (Resolved tt,
     mkWorld (moved s (component w)) l'
             (calls w ++ classification_calls t p (service w))
             (console w ++ entries))
    /\ error_no_photo ∉ entries.
Proof.
  intros Ht Hp. unfold handleSwipe. rewrite Ht, Hp.
  unfold classification_calls, try_catch, bind, await, console_write, throw.
  cbn [component service calls console].
  destruct (getAlbumAsync t (service w)) as [[[album|]|e] l1]; cbn.
  - destruct (addAssetsToAlbumAsync [p] album false l1) as [[ok|e] l2]; cbn;
      rewrite moveToNextPhoto_run; cbn; rewrite <- !app_assoc; cbn;
      eexists _, _; (split; [reflexivity|]);
      rewrite ?list_elem_of_In; cbn; intuition congruence.
  - destruct (createAlbumAsync t p false l1) as [[[album|]|e] l2]; cbn;
      rewrite moveToNextPhoto_run; cbn; rewrite <- !app_assoc; cbn;
      eexists _, _; (split; [reflexivity|]);
      rewrite ?list_elem_of_In; cbn; intuition congruence.
  - rewrite moveToNextPhoto_run; cbn.
    eexists _, _; (split; [reflexivity|]).
    rewrite ?list_elem_of_In; cbn; intuition congruence.
Qed.

(** The world [handleSwipe] leaves, by the answers of the library. *)
Lemma handleSwipe_cases s d t p w :
  targetAlbum d = Some t ->
  js_index (photos s) (currentIndex s) = Some p ->
  handleSwipe s d w =
  (Resolved tt,
   match getAlbumAsync t (service w) with
   | (Rejected e, l1) =>
       mkWorld (moved s (component w)) l1
               (calls w ++ [Call_getAlbum t])
               (console w ++ [error_managing_photo e])
   | (Resolved (Some album), l1) =>
       match addAssetsToAlbumAsync [p] album false l1 with
       | (Resolved _, l2) =>
           mkWorld (moved s (component w)) l2
                   (calls w ++ [Call_getAlbum t; Call_addAssetsToAlbum [p] album false])
                   (console w ++ [log_photo_added t])
       | (Rejected e, l2) =>
           mkWorld (moved s (component w)) l2
                   (calls w ++ [Call_getAlbum t; Call_addAssetsToAlbum [p] album false])
                   (console w ++ [error_managing_photo e])
       end
   | (Resolved None, l1) =>
       match createAlbumAsync t p false l1 with
       | (Resolved (Some _), l2) =>
           mkWorld (moved s (component w)) l2
                   (calls w ++ [Call_getAlbum t; Call_createAlbum t p false])
                   (console w ++ [log_album_not_found t; log_album_created t])
       | (Resolved None, l2) =>
           mkWorld (moved s (component w)) l2
                   (calls w ++ [Call_getAlbum t; Call_createAlbum t p false])
                   (console w ++ [log_album_not_found t;
                                  error_managing_photo "Failed to create the album."])
       | (Rejected e, l2) =>
           mkWorld (moved s (component w)) l2
                   (calls w ++ [Call_getAlbum t; Call_createAlbum t p false])
                   (console w ++ [log_album_not_found t; error_managing_photo e])
       end
   end).
Proof.
  intros Ht Hp. unfold handleSwipe. rewrite Ht, Hp.
  unfold try_catch, bind, await, console_write, throw.
  cbn [component service calls console].
  destruct (getAlbumAsync t (service w)) as [[[album|]|e] l1]; cbn.
  - destruct (addAssetsToAlbumAsync [p] album false l1) as [[ok|e] l2]; cbn;
      rewrite moveToNextPhoto_run; cbn; rewrite <- !app_assoc; reflexivity.
  - destruct (createAlbumAsync t p false l1) as [[[album|]|e] l2]; cbn;
      rewrite moveToNextPhoto_run; cbn; rewrite <- !app_assoc; reflexivity.
  - rewrite moveToNextPhoto_run; reflexivity.
Qed.

Lemma handleSwipe_moved s d w :
  is_Some (js_index (photos s) (currentIndex s)) ->
  component (snd (handleSwipe s d w)) = moved s (component w).
Proof.
  intros [p Hp]. destruct (targetAlbum d) as [t|] eqn:Ht.
  - destruct (handleSwipe_classify s d t p w Ht Hp) as (l' & es & -> & _).
    reflexivity.
  - destruct d; try discriminate. rewrite handleSwipe_left, moveToNextPhoto_run.
    reflexivity.
Qed.

(** The promise of [handleSwipe] never rejects. *)
Lemma handleSwipe_resolves s d w : fst (handleSwipe s d w) = Resolved tt.
Proof.
  destruct (targetAlbum d) as [t|] eqn:Ht.
  - destruct (js_index (photos s) (currentIndex s)) as [p|] eqn:Hp.
    + destruct (handleSwipe_classify s d t p w Ht Hp) as (l' & es & -> & _).
      reflexivity.
    + rewrite (handleSwipe_no_photo s d t w Ht Hp). reflexivity.
  - destruct d; try discriminate. rewrite handleSwipe_left, moveToNextPhoto_run.
    reflexivity.
Qed.

Lemma js_index_Some (xs : list Asset) (i : Z) :
  is_Some (js_index xs i) <-> 0 <= i < Z.of_nat (length xs).
Proof.
  unfold js_index. destruct (i <? 0) eqn:E.
  - apply Z.ltb_lt in E. split; [intros [? ?]; discriminate | lia].
  - apply Z.ltb_ge in E. rewrite lookup_lt_is_Some. lia.
Qed.

Lemma moved_index s c :
  currentIndex c = currentIndex s ->
  currentIndex (moved s c) =
  if currentIndex s <? Z.of_nat (length (photos s)) - 1
  then currentIndex s + 1 else currentIndex s.
Proof.
  intros Hc. unfold moved.
  destruct (currentIndex s <? Z.of_nat (length (photos s)) - 1); cbn; congruence.
Qed.

Lemma moved_photos s c : photos (moved s c) = photos c.
Proof.
  unfold moved.
  destruct (currentIndex s <? Z.of_nat (length (photos s)) - 1); reflexivity.
Qed.

Lemma moved_loading s c : loading (moved s c) = loading c.
Proof.
  unfold moved.
  destruct (currentIndex s <? Z.of_nat (length (photos s)) - 1); reflexivity.
Qed.

End HandlerFacts.

(** ** What a release dispatches *)

Section DispatchFacts.
Context {L : Type} `{MediaLibraryService L}.
Implicit Types (s : State) (w : World State L).

Lemma dispatched_right tx ty :
  (Qabs ty < Qabs tx)%Q -> (threshold < tx)%Q -> dispatched tx ty = Some right.
Proof.
  intros Hdom Hthr. unfold dispatched.
  apply Qltb_lt in Hdom, Hthr. rewrite Hdom, Hthr. reflexivity.
Qed.

Lemma dispatched_left tx ty :
  (Qabs ty < Qabs tx)%Q -> (tx < - threshold)%Q -> dispatched tx ty = Some left.
Proof.
  intros Hdom Hthr. unfold dispatched.
  assert (Hnot : Qltb threshold tx = false).
  { apply Qltb_ge. unfold threshold in *. lra. }
  apply Qltb_lt in Hdom, Hthr. rewrite Hdom, Hnot, Hthr. reflexivity.
Qed.

Lemma dispatched_small tx ty :
  (Qabs tx < threshold)%Q -> (Qabs ty < threshold)%Q -> dispatched tx ty = None.
Proof.
  intros Hx Hy. unfold dispatched, threshold in *.
  q_abs tx; q_abs ty; q_branch; try reflexivity; exfalso; lra.
Qed.

Lemma dispatched_exceeds tx ty :
  exceeds_threshold tx ty -> is_Some (dispatched tx ty).
Proof.
  unfold exceeds_threshold, dispatched, threshold.
  intros Hex. q_abs tx; q_abs ty; q_branch; try (eexists; reflexivity);
    exfalso; destruct Hex; lra.
Qed.

Lemma dispatched_Some_exceeds tx ty d :
  dispatched tx ty = Some d -> exceeds_threshold tx ty.
Proof.
  unfold exceeds_threshold, dispatched, threshold.
  q_abs tx; q_abs ty; q_branch; intros Hd; try discriminate;
    first [left; lra | right; lra].
Qed.

(** With equal absolute displacements the callback takes its vertical
    branch. *)
Lemma dispatched_tie tx ty :
  (Qabs tx == Qabs ty)%Q ->
  dispatched tx ty =
  if Qltb threshold ty then Some down
  else if Qltb ty (- threshold)%Q then Some up else None.
Proof.
  intros Htie. unfold dispatched.
  assert (Hnot : Qltb (Qabs ty) (Qabs tx) = false).
  { apply Qltb_ge. rewrite Htie. apply Qle_refl. }
  rewrite Hnot. reflexivity.
Qed.

Lemma dispatched_spec tx ty :
  ~ (Qabs tx == Qabs ty)%Q -> dispatched tx ty = dispatch_spec tx ty.
Proof.
  intros Hne. unfold dispatch_spec.
  destruct (Qcompare (Qabs tx) (Qabs ty)) eqn:Hcmp.
  - apply Qeq_alt in Hcmp. contradiction.
  - apply Qlt_alt in Hcmp. unfold dispatched, threshold.
    q_abs tx; q_abs ty; q_branch; try reflexivity; exfalso; lra.
  - apply Qgt_alt in Hcmp. unfold dispatched, threshold.
    q_abs tx; q_abs ty; q_branch; try reflexivity; exfalso; lra.
Qed.

(** C4.  A release whose absolute horizontal and vertical displacements are
    both below the threshold dispatches no direction and leaves the whole
    world as it was: the state cell (so the index), the library, the log of
    library calls and the console. *)
Theorem small_release_is_ignored s w tx ty :
  (Qabs tx < threshold)%Q -> (Qabs ty < threshold)%Q ->
  dispatched tx ty = None /\ onEnd s tx ty w = (Resolved tt, w).
Proof.
  intros Hx Hy. pose proof (dispatched_small tx ty Hx Hy) as Hd.
  split; [exact Hd|]. rewrite onEnd_dispatched, Hd. reflexivity.
Qed.

(** Whatever the two displacements, the callback dispatches by the chosen
    axis: the horizontal one when strictly larger in absolute value, the
    vertical one otherwise. *)
Lemma dispatched_by_axis tx ty :
  dispatched tx ty = Filing.dispatch_by_axis tx ty.
Proof.
  unfold Filing.dispatch_by_axis.
  destruct (Qcompare (Qabs tx) (Qabs ty)) eqn:Hcmp.
  - apply Qeq_alt in Hcmp. unfold dispatched, threshold.
    q_abs tx; q_abs ty; q_branch; try reflexivity; exfalso; lra.
  - apply Qlt_alt in Hcmp. unfold dispatched, threshold.
    q_abs tx; q_abs ty; q_branch; try reflexivity; exfalso; lra.
  - apply Qgt_alt in Hcmp. unfold dispatched, threshold.
    q_abs tx; q_abs ty; q_branch; try reflexivity; exfalso; lra.
Qed.

End DispatchFacts.

(** ** One swipe *)

Section SwipeFacts.
Context {L : Type} `{MediaLibraryService L}.
Implicit Types (s : State) (w : World State L).

Lemma gesture_dispatched w tx ty d :
  dispatched tx ty = Some d -> gesture tx ty w = swipe w d.
Proof.
  intros Hd. unfold gesture, swipe. rewrite onEnd_dispatched, Hd. reflexivity.
Qed.

Lemma swipe_index w d :
  is_Some (js_index (photos (component w)) (currentIndex (component w))) ->
  currentIndex (component (swipe w d)) =
  if currentIndex (component w) <? Z.of_nat (length (photos (component w))) - 1
  then currentIndex (component w) + 1
  else currentIndex (component w).
Proof.
  intros Hp. unfold swipe. rewrite handleSwipe_moved by exact Hp.
  apply moved_index. reflexivity.
Qed.

Lemma swipe_photos w d :
  is_Some (js_index (photos (component w)) (currentIndex (component w))) ->
  photos (component (swipe w d)) = photos (component w).
Proof.
  intros Hp. unfold swipe. rewrite handleSwipe_moved by exact Hp.
  apply moved_photos.
Qed.

Lemma swipe_loading w d :
  is_Some (js_index (photos (component w)) (currentIndex (component w))) ->
  loading (component (swipe w d)) = loading (component w).
Proof.
  intros Hp. unfold swipe. rewrite handleSwipe_moved by exact Hp.
  apply moved_loading.
Qed.

(** A classifying swipe with a current photo: the calls it issues, the
    library it leaves and the state cell it leaves. *)
Lemma swipe_filing w d t p :
  targetAlbum d = Some t ->
  js_index (photos (component w)) (currentIndex (component w)) = Some p ->
  calls (swipe w d) = calls w ++ classification_calls t p (service w)
  /\ service (swipe w d) = Filing.classification_library t p (service w)
  /\ component (swipe w d) = moved (component w) (component w).
Proof.
  intros Ht Hp. unfold swipe.
  rewrite (handleSwipe_cases (component w) d t p w Ht Hp). cbn [snd].
  unfold classification_calls, Filing.classification_library.
  destruct (getAlbumAsync t (service w)) as [[[album|]|e] l1]; cbn.
  - destruct (addAssetsToAlbumAsync [p] album false l1) as [[ok|e] l2];
      repeat split.
  - destruct (createAlbumAsync t p false l1) as [[[album|]|e] l2];
      repeat split.
  - repeat split.
Qed.

(** C1, as the code has it.  With a current photo [p] at index [i], a
    rightward release that dominates and exceeds the threshold looks the
    album "likedPhotos" up and then creates it seeded with [p] when the
    lookup found none, or adds [p] to the album found: these are the calls
    it issues, and the library it leaves is the one those operations
    return.  Whatever the library answers, the photo sequence is kept and
    the index becomes [i + 1] when [i < length - 1] and stays [i] when [i]
    is the last index. *)
Theorem right_swipe_files_then_moves w tx ty p :
  js_index (photos (component w)) (currentIndex (component w)) = Some p ->
  (Qabs ty < Qabs tx)%Q -> (threshold < tx)%Q ->
  calls (gesture tx ty w) =
    calls w ++ classification_calls "likedPhotos" p (service w)
  /\ service (gesture tx ty w) =
     Filing.classification_library "likedPhotos" p (service w)
  /\ photos (component (gesture tx ty w)) = photos (component w)
  /\ currentIndex (component (gesture tx ty w)) =
     if currentIndex (component w) <? Z.of_nat (length (photos (component w))) - 1
     then currentIndex (component w) + 1
     else currentIndex (component w).
Proof.
  intros Hp Hdom Hthr.
  rewrite (gesture_dispatched w tx ty right) by (apply dispatched_right; assumption).
  assert (HpS : is_Some (js_index (photos (component w)) (currentIndex (component w))))
    by (rewrite Hp; eexists; reflexivity).
  destruct (swipe_filing w right "likedPhotos" p eq_refl Hp) as (Hcalls & Hlib & _).
  split; [exact Hcalls|]. split; [exact Hlib|]. split.
  - apply swipe_photos. exact HpS.
  - apply swipe_index. exact HpS.
Qed.

(** C2, as the code has it.  In state Reviewing(i) with [0 <= i < length],
    any release that exceeds the threshold, whatever its direction, leads to
    Reviewing(i+1) when [i < length - 1] and back to Reviewing(i) when [i]
    is the last index. *)
Theorem swipe_advances_below_last w tx ty i :
  phase (component w) = Reviewing i ->
  0 <= i < Z.of_nat (length (photos (component w))) ->
  exceeds_threshold tx ty ->
  phase (component (gesture tx ty w)) =
  Reviewing (if i <? Z.of_nat (length (photos (component w))) - 1
             then i + 1 else i).
Proof.
  intros Hphase Hi Hex.
  destruct (dispatched_exceeds tx ty Hex) as [d Hd].
  rewrite (gesture_dispatched w tx ty d Hd).
  assert (Hidx : currentIndex (component w) = i /\ loading (component w) = false).
  { unfold phase in Hphase. destruct (loading (component w)); [discriminate|].
    destruct (photos (component w)); [discriminate|]. split; congruence. }
  destruct Hidx as [Hidx Hload].
  assert (HpS : is_Some (js_index (photos (component w)) (currentIndex (component w))))
    by (apply js_index_Some; lia).
  unfold phase.
  rewrite (swipe_loading w d HpS), Hload, (swipe_photos w d HpS),
    (swipe_index w d HpS), Hidx.
  destruct (photos (component w)) eqn:Hph; [cbn in Hi; lia|]. reflexivity.
Qed.

(** C3, as the code has it.  In every state, a leftward release that
    dominates and exceeds the threshold issues no media-library call at
    all, leaves the library, the console and the photo sequence as they
    were, and makes the index [i + 1] when [i < length - 1], leaving it
    unchanged otherwise. *)
Theorem left_swipe_only_moves w tx ty :
  (Qabs ty < Qabs tx)%Q -> (tx < - threshold)%Q ->
  calls (gesture tx ty w) = calls w
  /\ service (gesture tx ty w) = service w
  /\ console (gesture tx ty w) = console w
  /\ photos (component (gesture tx ty w)) = photos (component w)
  /\ currentIndex (component (gesture tx ty w)) =
     if currentIndex (component w) <? Z.of_nat (length (photos (component w))) - 1
     then currentIndex (component w) + 1
     else currentIndex (component w).
Proof.
  intros Hdom Hthr.
  rewrite (gesture_dispatched w tx ty left) by (apply dispatched_left; assumption).
  unfold swipe. rewrite handleSwipe_left, moveToNextPhoto_run. cbn.
  repeat split.
  - apply moved_photos.
  - apply moved_index. reflexivity.
Qed.

(** C5, as the code has it.  What a release does is a function of its
    two displacements: the horizontal axis is chosen when its absolute
    displacement is strictly the larger, the vertical axis otherwise (so
    also on a tie); when the chosen displacement exceeds the threshold its
    sign selects the direction, and right files into "likedPhotos", up into
    "superlikedPhotos", down into "toDelete" and left into no album; a
    release that does not exceed the threshold on the chosen axis does
    nothing.  Filing is observed on the world: the calls issued are those of
    one classification of the current photo into that album, the library
    left is the one those operations return, and the state cell is the one
    the selected direction leaves. *)
Theorem release_files_by_chosen_axis w tx ty :
  calls (gesture tx ty w) =
    calls w
    ++ Filing.filing_calls (Filing.chosen_album tx ty)
         (js_index (photos (component w)) (currentIndex (component w)))
         (service w)
  /\ service (gesture tx ty w) =
     Filing.filing_library (Filing.chosen_album tx ty)
       (js_index (photos (component w)) (currentIndex (component w)))
       (service w)
  /\ component (gesture tx ty w) =
     Filing.after_release (Filing.dispatch_by_axis tx ty) (component w).
Proof.
  unfold gesture. rewrite onEnd_dispatched, dispatched_by_axis.
  unfold Filing.chosen_album, Filing.after_release.
  destruct (Filing.dispatch_by_axis tx ty) as [d|];
    [|cbn; rewrite app_nil_r; repeat split].
  destruct (targetAlbum d) as [t|] eqn:Ht.
  - assert (Ha : Filing.action_album d = Some t) by (destruct d; exact Ht).
    rewrite Ha.
    destruct (js_index (photos (component w)) (currentIndex (component w)))
      as [p|] eqn:Hp.
    + apply (swipe_filing w d t p Ht Hp).
    + rewrite (handleSwipe_no_photo (component w) d t w Ht Hp). cbn.
      rewrite app_nil_r. repeat split.
  - assert (Ha : Filing.action_album d = None) by (destruct d; exact Ht).
    rewrite Ha. destruct d; try discriminate.
    rewrite handleSwipe_left, moveToNextPhoto_run. cbn.
    rewrite app_nil_r. repeat split.
Qed.

End SwipeFacts.

(** ** Whole sessions *)

Section SessionFacts.
Context {L : Type} `{MediaLibraryService L}.
Implicit Types (s : State) (w : World State L).

Lemma interactive_current_photo s :
  interactive s = true -> is_Some (js_index (photos s) (currentIndex s)).
Proof.
  unfold interactive, render.
  destruct (loading s); [discriminate|].
  destruct (decide (length (photos s) = 0%nat)); [discriminate|].
  destruct (js_index (photos s) (currentIndex s)); [eexists; reflexivity|discriminate].
Qed.

Lemma moved_in_range s : index_in_range s -> index_in_range (moved s s).
Proof.
  unfold index_in_range, moved. intros (H0 & Hnil & Hlt & Hload).
  destruct (currentIndex s <? Z.of_nat (length (photos s)) - 1) eqn:E;
    [|tauto].
  apply Z.ltb_lt in E. cbn. repeat split.
  - lia.
  - intros Hph. rewrite Hph in E. cbn in E. lia.
  - lia.
  - exact Hload.
Qed.

Lemma opened_sound albumId l : sound (opened albumId l).
Proof.
  unfold sound, opened, loadPhotos, bind, await, mount. cbn.
  destruct (getAssetsAsync (photoOptions albumId) l) as [[page|e] l']; cbn.
  - split.
    + unfold index_in_range; cbn. repeat split; try lia; try discriminate.
      intros Hne. destruct (rev (assets page)); [contradiction|cbn; lia].
    + rewrite list_elem_of_In. cbn. intuition discriminate.
  - split.
    + unfold index_in_range; cbn. repeat split; try lia. contradiction.
    + apply not_elem_of_nil.
Qed.

Lemma step_sound w e : sound w -> sound (step w e).
Proof.
  intros [Hrange Hcons]. destruct e as [tx ty| |l']; cbn.
  - destruct (interactive (component w)) eqn:Hint; [|split; assumption].
    pose proof (interactive_current_photo _ Hint) as [p Hp].
    rewrite onEnd_dispatched. destruct (dispatched tx ty) as [d|]; [|split; assumption].
    destruct (targetAlbum d) as [t|] eqn:Ht.
    + destruct (handleSwipe_classify (component w) d t p w Ht Hp)
        as (l' & es & -> & Hes).
      split; cbn; [apply moved_in_range; exact Hrange|].
      rewrite elem_of_app. tauto.
    + destruct d; try discriminate.
      rewrite handleSwipe_left, moveToNextPhoto_run.
      split; cbn; [apply moved_in_range; exact Hrange|exact Hcons].
  - destruct (interactive (component w)); split; assumption.
  - split; assumption.
Qed.

Lemma run_sound w events : sound w -> sound (run w events).
Proof.
  revert w. induction events as [|e events IH]; intros w Hw; [exact Hw|].
  cbn. apply IH, step_sound, Hw.
Qed.

Lemma session_sound albumId l events : sound (session albumId l events).
Proof. apply run_sound, opened_sound. Qed.

Lemma opened_index albumId l : currentIndex (component (opened albumId l)) = 0.
Proof.
  unfold opened, loadPhotos, bind, await, mount. cbn.
  destruct (getAssetsAsync (photoOptions albumId) l) as [[page|e] l']; reflexivity.
Qed.

(** C6.  The index is 0 when the effect that loads the photo sequence has
    settled, and after any sequence of events of a session it satisfies
    [0 <= currentIndex <= length]. *)
Theorem index_within_bounds albumId (l : L) (events : list (Event L)) :
  currentIndex (component (opened albumId l)) = 0
  /\ 0 <= currentIndex (component (session albumId l events))
       <= Z.of_nat (length (photos (component (session albumId l events)))).
Proof.
  split; [apply opened_index|].
  destruct (session_sound albumId l events) as [(H0 & Hnil & Hlt & _) _].
  destruct (photos (component (session albumId l events))) eqn:Hph.
  - specialize (Hnil eq_refl). cbn. lia.
  - assert (Hne : a :: l0 <> []) by discriminate.
    specialize (Hlt Hne). lia.
Qed.

(** C7.  In a session over a non-empty photo sequence the index stays
    strictly below the length after any sequence of events, so
    [photos[currentIndex]] is a photo, the render that reads it succeeds, and
    the branch of [handleSwipe] for a missing current photo has never run
    (its console error was never written). *)
Theorem current_photo_always_present albumId (l : L) (events : list (Event L)) :
  photos (component (session albumId l events)) <> [] ->
  0 <= currentIndex (component (session albumId l events))
     < Z.of_nat (length (photos (component (session albumId l events))))
  /\ is_Some (js_index (photos (component (session albumId l events)))
                       (currentIndex (component (session albumId l events))))
  /\ is_Some (render (component (session albumId l events)))
  /\ error_no_photo ∉ console (session albumId l events).
Proof.
  intros Hne.
  destruct (session_sound albumId l events) as [(H0 & Hnil & Hlt & _) Hcons].
  specialize (Hlt Hne).
  assert (HpS : is_Some (js_index (photos (component (session albumId l events)))
                  (currentIndex (component (session albumId l events)))))
    by (apply js_index_Some; lia).
  split; [lia|]. split; [exact HpS|]. split; [|exact Hcons].
  unfold render. destruct (loading _); [eexists; reflexivity|].
  destruct (decide _); [eexists; reflexivity|].
  destruct HpS as [p ->]. eexists; reflexivity.
Qed.

End SessionFacts.

(** ** The last photo *)

Section LastPhotoFacts.
Context {L : Type} `{MediaLibraryService L}.
Implicit Types (s : State) (w : World State L).

Lemma classification_calls_shape t p (l : L) :
  length (List.filter is_lookup (classification_calls t p l)) = 1%nat
  /\ Forall (fun c => is_mutation c = true -> submitted c = [p])
            (classification_calls t p l).
Proof.
  unfold classification_calls.
  destruct (fst (getAlbumAsync t l)) as [[album|]|e]; cbn;
    (split; [reflexivity|]); repeat constructor; cbn; congruence.
Qed.

Lemma moved_last s c :
  currentIndex s = Z.of_nat (length (photos s)) - 1 -> moved s c = c.
Proof.
  intros Hlast. unfold moved.
  destruct (currentIndex s <? Z.of_nat (length (photos s)) - 1) eqn:E;
    [apply Z.ltb_lt in E; lia | reflexivity].
Qed.

(** A classifying swipe on the last photo: the state cell is untouched and
    the calls of one classification are appended. *)
Lemma swipe_last w d t p :
  currentIndex (component w) = Z.of_nat (length (photos (component w))) - 1 ->
  js_index (photos (component w)) (currentIndex (component w)) = Some p ->
  targetAlbum d = Some t ->
  component (swipe w d) = component w
  /\ calls (swipe w d) = calls w ++ classification_calls t p (service w).
Proof.
  intros Hlast Hp Ht. unfold swipe.
  destruct (handleSwipe_classify (component w) d t p w Ht Hp)
    as (l' & es & -> & _).
  cbn. split; [apply moved_last; exact Hlast | reflexivity].
Qed.

Lemma swipes_last w directions p :
  currentIndex (component w) = Z.of_nat (length (photos (component w))) - 1 ->
  js_index (photos (component w)) (currentIndex (component w)) = Some p ->
  Forall (fun d => d <> left) directions ->
  component (swipes w directions) = component w
  /\ exists issued,
       calls (swipes w directions) = calls w ++ issued
       /\ length (List.filter is_lookup issued) = length directions
       /\ Forall (fun c => is_mutation c = true -> submitted c = [p]) issued.
Proof.
  intros Hlast Hp Hds. revert w Hlast Hp.
  induction Hds as [|d ds Hd Hds IH]; intros w Hlast Hp.
  - split; [reflexivity|]. exists []. rewrite app_nil_r. repeat split. constructor.
  - destruct (targetAlbum d) as [t|] eqn:Ht; [|destruct d; discriminate || contradiction].
    destruct (swipe_last w d t p Hlast Hp Ht) as [Hc Hcalls].
    unfold swipes. cbn. fold (swipes (swipe w d) ds).
    destruct (IH (swipe w d)) as (Hc' & issued & Hissued & Hlook & Hsub).
    { rewrite Hc. exact Hlast. }
    { rewrite Hc. exact Hp. }
    split; [congruence|].
    destruct (classification_calls_shape t p (service w)) as [Hone Hmine].
    exists (classification_calls t p (service w) ++ issued).
    split; [rewrite Hissued, Hcalls, app_assoc; reflexivity|].
    split.
    + rewrite List.filter_app, length_app, Hone, Hlook. reflexivity.
    + apply Forall_app. split; assumption.
Qed.

(** The library after swipes on the last photo: that of one classification
    of the photo after the other. *)
Lemma swipes_last_library w directions p :
  currentIndex (component w) = Z.of_nat (length (photos (component w))) - 1 ->
  js_index (photos (component w)) (currentIndex (component w)) = Some p ->
  Forall (fun d => d <> left) directions ->
  service (swipes w directions)
  = Filing.classification_libraries p directions (service w).
Proof.
  intros Hlast Hp Hds. revert w Hlast Hp.
  induction Hds as [|d ds Hd Hds IH]; intros w Hlast Hp; [reflexivity|].
  destruct (targetAlbum d) as [t|] eqn:Ht; [|destruct d; discriminate || contradiction].
  destruct (swipe_last w d t p Hlast Hp Ht) as [Hc _].
  destruct (swipe_filing w d t p Ht Hp) as (_ & Hlib & _).
  unfold swipes, Filing.classification_libraries. cbn [foldl].
  fold (swipes (swipe w d) ds).
  assert (Ha : Filing.action_album d = Some t) by (destruct d; exact Ht).
  rewrite Ha, <- Hlib.
  apply IH; rewrite Hc; assumption.
Qed.

(** C8.  On the last photo ([currentIndex = length - 1]) a release that
    dispatches right, up or down still issues the lookup of its target
    album followed by the creation seeded with that photo or the addition
    of that photo, leaves the library those operations return, and leaves
    the state cell, so the index, where it was.  Hence any number of such
    swipes in a row leaves the index at the last photo, issues one lookup
    per swipe, submits that same photo in every creation or addition
    issued, and leaves the library of that many classifications of the
    photo, one after the other. *)
Theorem last_photo_is_filed_again w p :
  currentIndex (component w) = Z.of_nat (length (photos (component w))) - 1 ->
  js_index (photos (component w)) (currentIndex (component w)) = Some p ->
  (forall tx ty d t,
      dispatched tx ty = Some d -> targetAlbum d = Some t ->
      component (gesture tx ty w) = component w
      /\ calls (gesture tx ty w) =
         calls w ++ classification_calls t p (service w)
      /\ service (gesture tx ty w) =
         Filing.classification_library t p (service w))
  /\ (forall directions,
        Forall (fun d => d <> left) directions ->
        component (swipes w directions) = component w
        /\ service (swipes w directions)
           = Filing.classification_libraries p directions (service w)
        /\ exists issued,
             calls (swipes w directions) = calls w ++ issued
             /\ length (List.filter is_lookup issued) = length directions
             /\ Forall (fun c => is_mutation c = true -> submitted c = [p])
                       issued).
Proof.
  intros Hlast Hp. split.
  - intros tx ty d t Hd Ht. rewrite (gesture_dispatched w tx ty d Hd).
    destruct (swipe_last w d t p Hlast Hp Ht) as [Hc Hcalls].
    destruct (swipe_filing w d t p Ht Hp) as (_ & Hlib & _).
    split; [exact Hc|]. split; [exact Hcalls|exact Hlib].
  - intros directions Hds.
    destruct (swipes_last w directions p Hlast Hp Hds) as [Hc Hissued].
    split; [exact Hc|]. split; [|exact Hissued].
    apply swipes_last_library; assumption.
Qed.

End LastPhotoFacts.

(** ** Sorting *)

Section SortFacts.
Context {A : Type} (compareFn : A -> A -> Z).
#[local] Abbreviation before := (sort_before compareFn).

Lemma sort_insert_Permutation (x : A) (xs : list A) :
  Permutation (x :: xs) (sort_insert compareFn x xs).
Proof.
  induction xs as [|y xs IH]; cbn; [reflexivity|].
  destruct (0 <? compareFn x y); [|reflexivity].
  rewrite perm_swap. constructor. exact IH.
Qed.

Lemma js_sort_Permutation (xs : list A) : Permutation xs (js_sort compareFn xs).
Proof.
  induction xs as [|x xs IH]; cbn; [reflexivity|].
  rewrite <- sort_insert_Permutation. constructor. exact IH.
Qed.

Hypothesis compareFn_flip : forall a b, 0 < compareFn a b -> compareFn b a <= 0.

Lemma sort_insert_HdRel (x y : A) (xs : list A) :
  before y x -> HdRel before y xs -> HdRel before y (sort_insert compareFn x xs).
Proof.
  intros Hyx Hhd. destruct xs as [|z xs]; cbn; [constructor; exact Hyx|].
  destruct (0 <? compareFn x z); constructor.
  - inversion Hhd; assumption.
  - exact Hyx.
Qed.

Lemma sort_insert_Sorted (x : A) (xs : list A) :
  Sorted before xs -> Sorted before (sort_insert compareFn x xs).
Proof.
  induction 1 as [|y xs Hs IH Hhd]; cbn; [repeat constructor|].
  destruct (0 <? compareFn x y) eqn:E.
  - apply Z.ltb_lt in E. constructor; [exact IH|].
    apply sort_insert_HdRel; [apply compareFn_flip; exact E | exact Hhd].
  - apply Z.ltb_ge in E. constructor; [constructor; assumption|].
    constructor. exact E.
Qed.

Lemma js_sort_Sorted (xs : list A) : Sorted before (js_sort compareFn xs).
Proof.
  induction xs as [|x xs IH]; cbn; [constructor|].
  apply sort_insert_Sorted. exact IH.
Qed.

End SortFacts.

(** ** AlbumListScreen *)

Section AlbumListFacts.
Context {L : Type} `{MediaLibraryService L}.
Import AlbumListScreen.

#[local] Instance by_count_Transitive : Transitive by_count.
Proof. unfold by_count. intros a b c Hab Hbc. lia. Qed.

Lemma js_sort_by_count (xs : list AlbumWithCount) :
  StronglySorted by_count (js_sort compareFn xs).
Proof.
  apply Sorted_StronglySorted; [apply by_count_Transitive|].
  assert (Hsorted : Sorted (sort_before compareFn) (js_sort compareFn xs)).
  { apply js_sort_Sorted. unfold compareFn. intros a b. lia. }
  induction Hsorted as [|x l Hs IH Hhd]; constructor; [exact IH|].
  destruct Hhd as [|y l Hxy]; constructor.
  unfold sort_before, compareFn in Hxy. unfold by_count. lia.
Qed.

(** The counted albums are the albums enumerated, in order. *)
Lemma withCount_all_albums (albums : list Album) (w w' : World State L) awc :
  promise_all (map withCount albums) w = (Resolved awc, w') ->
  map album_of awc = albums.
Proof.
  revert w w' awc. induction albums as [|a albums IH]; intros w w' awc; cbn.
  - unfold ret. intros [= <- _]. reflexivity.
  - unfold withCount at 1, bind, await, ret.
    destruct (getAssetsAsync (countOptions a) (service w)) as [[page|e] l1];
      [|discriminate].
    destruct (promise_all (map withCount albums) _) as [[rest|e] w''] eqn:Hrest;
      [|discriminate].
    intros [= <- _]. cbn. f_equal. eapply IH. exact Hrest.
Qed.

(** The count queries of the effect resolve to the albums with the counts
    the library answers, and reject when the library rejects one. *)
Lemma withCount_run (a : Album) (w : World State L) :
  withCount a w =
  match getAssetsAsync (countOptions a) (service w) with
  | (Resolved page, l1) =>
      (Resolved (mkAlbumWithCount a (totalCount page)),
       mkWorld (component w) l1 (calls w ++ [Call_getAssets (countOptions a)])
               (console w))
  | (Rejected e, l1) =>
      (Rejected e,
       mkWorld (component w) l1 (calls w ++ [Call_getAssets (countOptions a)])
               (console w))
  end.
Proof.
  unfold withCount, bind, await, ret.
  destruct (getAssetsAsync (countOptions a) (service w)) as [[page|e] l1];
    reflexivity.
Qed.

Lemma promise_all_library_counts (albums : list Album) (w : World State L) :
  match Filing.library_counts albums (service w) with
  | Some counted =>
      fst (promise_all (map withCount albums) w) = Resolved counted
  | None => exists e, fst (promise_all (map withCount albums) w) = Rejected e
  end.
Proof.
  revert w. induction albums as [|a albums IH]; intros w; [reflexivity|].
  cbn [map promise_all Filing.library_counts]. rewrite withCount_run.
  destruct (getAssetsAsync (countOptions a) (service w)) as [[page|e] l1].
  - match goal with
    | |- context [promise_all _ ?w1] => specialize (IH w1)
    end.
    cbn [service] in IH.
    destruct (Filing.library_counts albums l1) as [counted|].
    + destruct (promise_all (map withCount albums) _) as [[rest|e] w2];
        cbn in IH |- *; congruence.
    + destruct IH as [e IH].
      destruct (promise_all (map withCount albums) _) as [[rest|e'] w2];
        cbn in IH |- *; [discriminate|eexists; reflexivity].
  - eexists. reflexivity.
Qed.

(** C9.  When permission is granted, the albums are enumerated and the
    library answers every count query, the screen renders a list that is a
    permutation of the enumerated albums, each with the count the library
    answered for it, and in which every album has a count at least as large
    as every album after it. *)
Theorem albums_rendered_by_count (l l1 l2 : L) (albums : list Album)
    (counted : list AlbumWithCount) :
  requestPermissionsAsync l = (Resolved granted, l1) ->
  getAlbumsAsync l1 = (Resolved albums, l2) ->
  Filing.library_counts albums l2 = Some counted ->
  exists data,
    render (component (loaded l)) = AlbumList data
    /\ map album_of counted = albums
    /\ Permutation counted data
    /\ StronglySorted by_count data.
Proof.
  intros Hperm Halbums Hcounts.
  exists (js_sort compareFn counted).
  pose proof (promise_all_library_counts albums
                (mkWorld initial l2 [Call_requestPermissions; Call_getAlbums] []))
    as Hall.
  cbn [service] in Hall. rewrite Hcounts in Hall.
  destruct (promise_all (map withCount albums)
              (mkWorld initial l2 [Call_requestPermissions; Call_getAlbums] []))
    as [r w3] eqn:Hrun.
  cbn in Hall. subst r.
  split; [|split; [|split]].
  - unfold loaded, loadAlbums, mount, bind, await. cbn. rewrite Hperm. cbn.
    destruct (decide (granted <> granted)) as [Hne|_]; [contradiction|].
    cbn. rewrite Halbums. cbn. rewrite Hrun. reflexivity.
  - eapply withCount_all_albums. exact Hrun.
  - apply js_sort_Permutation.
  - apply js_sort_by_count.
Qed.

(** C10.  When the permission request answers anything but granted, the
    effect ends there: the loading flag is off, the album list is still
    empty, the permission request is the only call issued (no album query,
    no second request), and the screen renders the empty list; the denial
    goes to the console only. *)
Theorem permission_denied_stops_loading (l l1 : L) (status : PermissionStatus) :
  requestPermissionsAsync l = (Resolved status, l1) ->
  status <> granted ->
  fst (loadAlbums (mount l)) = Resolved tt
  /\ loading (component (loaded l)) = false
  /\ AlbumListScreen.albums (component (loaded l)) = []
  /\ calls (loaded l) = [Call_requestPermissions]
  /\ render (component (loaded l)) = AlbumList []
  /\ console (loaded l) = [log_permission_denied]
  /\ service (loaded l) = l1.
Proof.
  intros Hperm Hdenied.
  unfold loaded, loadAlbums, mount, bind, await. cbn. rewrite Hperm. cbn.
  destruct (decide (status <> granted)) as [_|Hgranted]; [|contradiction].
  cbn. repeat split.
Qed.

(** A permission request that rejects leaves the loading flag on. *)
Lemma permission_request_rejected (l l1 : L) (e : JsError) :
  requestPermissionsAsync l = (Rejected e, l1) ->
  loadAlbums (mount l) = (Rejected e, mkWorld initial l1 [Call_requestPermissions] []).
Proof.
  intros Hperm. unfold loadAlbums, mount, bind, await. cbn. rewrite Hperm.
  reflexivity.
Qed.

End AlbumListFacts.

(** ** Overlapping handlers *)

Section InterleavedFacts.
Context {L : Type} `{MediaLibraryService L}.
Import Interleaved.
Implicit Types (s : State) (w : World State L) (σ : System L).

(** Cut at its awaits and resumed at once, the handler is [handleSwipe]. *)
Lemma start_to_completion s d w :
  to_completion (start s d w) = snd (handleSwipe s d w).
Proof.
  unfold start, handleSwipe.
  destruct (targetAlbum d) as [t|]; [|reflexivity].
  destruct (js_index (photos s) (currentIndex s)) as [p|]; [|reflexivity].
  unfold to_completion, resume, failed, succeeded, try_catch, bind, await,
    console_write, throw.
  cbn [component service calls console].
  destruct (getAlbumAsync t (service w)) as [[[album|]|e] l1]; cbn.
  - destruct (addAssetsToAlbumAsync [p] album false l1) as [[ok|e] l2]; reflexivity.
  - destruct (createAlbumAsync t p false l1) as [[[album|]|e] l2]; reflexivity.
  - reflexivity.
Qed.

Lemma moved_in_range_stale s c :
  index_in_range s -> index_in_range c -> photos s = photos c ->
  index_in_range (moved s c).
Proof.
  unfold index_in_range, moved.
  intros (Hs0 & _ & _ & _) (Hc0 & Hcnil & Hclt & Hcload) Hph.
  destruct (currentIndex s <? Z.of_nat (length (photos s)) - 1) eqn:E;
    [|tauto].
  apply Z.ltb_lt in E. rewrite Hph in E. cbn. repeat split.
  - lia.
  - intros Hnil. rewrite Hnil in E. cbn in E. lia.
  - lia.
  - exact Hcload.
Qed.

(** The end of a handler: one console line that is not the missing-photo
    error, then [moveToNextPhoto] of the render it closed over. *)
Lemma succeeded_sound s entry w :
  entry <> error_no_photo ->
  sound w -> photos s = photos (component w) -> index_in_range s ->
  sound (snd (succeeded s entry w))
  /\ photos (component (snd (succeeded s entry w))) = photos (component w).
Proof.
  intros Hentry [Hrange Hcons] Hph Hs.
  unfold succeeded, bind, console_write. rewrite moveToNextPhoto_run. cbn.
  split; [split|]; cbn.
  - apply moved_in_range_stale; assumption.
  - rewrite elem_of_app, list_elem_of_singleton. intros [?|?]; [tauto|congruence].
  - apply moved_photos.
Qed.

Lemma failed_succeeded s e :
  failed (L := L) s e = succeeded s (error_managing_photo e).
Proof. reflexivity. Qed.

Lemma resume_sound task w :
  sound w ->
  photos (closure task) = photos (component w) ->
  index_in_range (closure task) ->
  sound (fst (resume task w))
  /\ photos (component (fst (resume task w))) = photos (component w)
  /\ Forall (fun task' => closure task' = closure task)
            (option_task (snd (resume task w))).
Proof.
  intros Hw Hph Hs.
  assert (Hend : forall entry, entry <> error_no_photo ->
    sound (snd (succeeded (closure task) entry w))
    /\ photos (component (snd (succeeded (closure task) entry w)))
       = photos (component w)
    /\ Forall (fun task' => closure task' = closure task) (option_task None)).
  { intros entry Hentry.
    destruct (succeeded_sound (closure task) entry w Hentry Hw Hph Hs).
    split; [assumption|]. split; [assumption|constructor]. }
  destruct task as [s t p [[album|]|e] | s t [[album|]|e] | s t [ok|e]];
    cbn [resume closure] in *; rewrite ?failed_succeeded;
    try (apply Hend; discriminate).
  - unfold await.
    destruct (addAssetsToAlbumAsync [p] album false (service w)) as [answer l1].
    cbn. destruct Hw as [Hrange Hcons].
    split; [split; [exact Hrange|exact Hcons]|].
    split; [reflexivity|repeat constructor].
  - unfold await, console_write. cbn.
    destruct (createAlbumAsync t p false (service w)) as [answer l1].
    cbn. destruct Hw as [Hrange Hcons].
    split; [split; [exact Hrange|]|split; [reflexivity|repeat constructor]].
    cbn. rewrite elem_of_app, list_elem_of_singleton.
    intros [?|?]; [tauto|congruence].
Qed.

Lemma start_sound w d :
  sound w -> interactive (component w) = true ->
  sound (fst (start (component w) d w))
  /\ photos (component (fst (start (component w) d w))) = photos (component w)
  /\ Forall (fun task => closure task = component w)
            (option_task (snd (start (component w) d w))).
Proof.
  intros [Hrange Hcons] Hint.
  destruct (interactive_current_photo _ Hint) as [p Hp].
  unfold start. rewrite Hp. destruct (targetAlbum d) as [t|].
  - unfold await. destruct (getAlbumAsync t (service w)) as [answer l1]. cbn.
    split; [split; [exact Hrange|exact Hcons]|].
    split; [reflexivity|repeat constructor].
  - rewrite moveToNextPhoto_run. cbn. split; [split|split]; cbn.
    + apply moved_in_range; exact Hrange.
    + exact Hcons.
    + apply moved_photos.
    + constructor.
Qed.

Lemma interleaved_step_sound σ e : sound_system σ -> sound_system (step σ e).
Proof.
  intros [Hw Hpend]. destruct e as [tx ty|k| |l']; cbn.
  - destruct (interactive (component (world σ))) eqn:Hint; [|split; assumption].
    destruct (dispatched tx ty) as [d|]; [|split; assumption].
    destruct (start_sound (world σ) d Hw Hint) as (Hw' & Hph & Hnew).
    destruct (start (component (world σ)) d (world σ)) as [w' o]. cbn in *.
    split; [exact Hw'|]. cbn. apply Forall_app. split.
    + eapply Forall_impl; [exact Hpend|]. cbn. intros task [? ?].
      split; [congruence|assumption].
    + eapply Forall_impl; [exact Hnew|]. cbn. intros task ->.
      split; [congruence|apply Hw].
  - destruct (pending σ !! k) as [task|] eqn:Hk; [|split; assumption].
    destruct (Forall_lookup_1 _ _ _ _ Hpend Hk) as [Hph Hs].
    destruct (resume_sound task (world σ) Hw Hph Hs) as (Hw' & Hph' & Hnew).
    destruct (resume task (world σ)) as [w' o]. cbn in *.
    split; [exact Hw'|]. cbn. apply Forall_app. split.
    + apply Forall_delete. eapply Forall_impl; [exact Hpend|].
      cbn. intros task' [? ?]. split; [congruence|assumption].
    + eapply Forall_impl; [exact Hnew|]. cbn. intros task' ->.
      split; [congruence|assumption].
  - destruct (interactive (component (world σ))); split; assumption.
  - split; assumption.
Qed.

Lemma interleaved_session_sound albumId (l : L) (events : list (Event L)) :
  sound_system (Interleaved.session albumId l events).
Proof.
  unfold Interleaved.session.
  assert (Hinit : sound_system (mkSystem (opened albumId l) [])).
  { split; [apply opened_sound | constructor]. }
  revert Hinit. generalize (mkSystem (opened albumId l) []).
  induction events as [|e events IH]; intros σ Hσ; [exact Hσ|].
  cbn. apply IH, interleaved_step_sound, Hσ.
Qed.

(** X18.  The bounds on the index, the presence of the current photo and
    the silence of the missing-photo branch survive handlers that overlap:
    however pan releases and the resumptions of handlers suspended at their
    awaits interleave, [0 <= currentIndex <= length], the index is below
    the length of a non-empty sequence, and the error for a missing photo
    is never written. *)
Lemma interleaved_index_within_bounds albumId (l : L) (events : list (Event L)) :
  let w := world (Interleaved.session albumId l events) in
  0 <= currentIndex (component w) <= Z.of_nat (length (photos (component w)))
  /\ (photos (component w) <> [] ->
      currentIndex (component w) < Z.of_nat (length (photos (component w))))
  /\ error_no_photo ∉ console w.
Proof.
  destruct (interleaved_session_sound albumId l events)
    as [[(H0 & Hnil & Hlt & _) Hcons] _].
  cbn. split; [|split; assumption].
  destruct (photos (component (world (Interleaved.session albumId l events))))
    eqn:Hph.
  - specialize (Hnil eq_refl). cbn. lia.
  - assert (Hne : a :: l0 <> []) by discriminate.
    specialize (Hlt Hne). lia.
Qed.

End InterleavedFacts.

(** A handler that resumes late writes the index of the render it closed
    over, plus one: after a like at index 0 overtaken by two skips the index
    is back at 1, within bounds all the same. *)
Example late_handler_writes_its_own_index :
  currentIndex (component (Interleaved.world Runs.overtaken)) = 1
  /\ length (photos (component (Interleaved.world Runs.overtaken))) = 3%nat
  /\ Interleaved.pending Runs.overtaken = [].
Proof. vm_compute. repeat split. Qed.

(** ** The device files what it is handed *)

Section DeviceFacts.
Import Device.

Lemma find_app_None {A} (P : A -> bool) (xs ys : list A) :
  List.find P xs = None -> List.find P (xs ++ ys) = List.find P ys.
Proof.
  induction xs as [|x xs IH]; cbn; [reflexivity|].
  destruct (P x); [discriminate|exact IH].
Qed.

Lemma find_map_same {A} (P : A -> bool) (g : A -> A) (xs : list A) :
  (forall x, P (g x) = P x) ->
  List.find P (map g xs) = option_map g (List.find P xs).
Proof.
  intros Hg. induction xs as [|x xs IH]; cbn; [reflexivity|].
  rewrite Hg. destruct (P x); [reflexivity|exact IH].
Qed.

Lemma filed_create name p (l : Library) :
  find_by title name l = None -> filed name (create name p l) = [p].
Proof.
  unfold filed, find_by, create. cbn. intros Hnone.
  rewrite find_app_None by exact Hnone. cbn.
  rewrite bool_decide_eq_true_2 by reflexivity. reflexivity.
Qed.

Lemma filed_add_to name album items p (l : Library) :
  find_by title name l = Some (album, items) ->
  filed name (add_to album [p] l) = items ++ [p].
Proof.
  unfold filed, find_by, add_to. cbn. intros Hfound.
  rewrite find_map_same.
  - rewrite Hfound. cbn. rewrite decide_True by reflexivity. reflexivity.
  - intros e. destruct (decide (fst e = album)); reflexivity.
Qed.

(** On a device that answers, the photo a rightward swipe classifies is
    filed under "likedPhotos" afterwards. *)
Lemma device_right_swipe_files_photo (w : World State Library) tx ty p :
  available (service w) = true ->
  js_index (photos (component w)) (currentIndex (component w)) = Some p ->
  (Qabs ty < Qabs tx)%Q -> (threshold < tx)%Q ->
  p ∈ filed "likedPhotos" (service (gesture tx ty w)).
Proof.
  intros Havail Hp Hdom Hthr.
  rewrite (gesture_dispatched w tx ty right) by (apply dispatched_right; assumption).
  unfold swipe, handleSwipe. rewrite Hp. cbn [targetAlbum].
  unfold try_catch, bind, await, console_write.
  cbn [component service calls console getAlbumAsync createAlbumAsync
       addAssetsToAlbumAsync library_service].
  unfold guarded. rewrite Havail.
  destruct (find_by title "likedPhotos" (service w)) as [[album items]|] eqn:Hfind;
    cbn; rewrite ?Havail; cbn; rewrite moveToNextPhoto_run; cbn.
  - rewrite (filed_add_to _ _ _ _ _ Hfind). apply elem_of_app. right.
    apply list_elem_of_singleton. reflexivity.
  - rewrite (filed_create _ _ _ Hfind). apply list_elem_of_singleton. reflexivity.
Qed.

End DeviceFacts.

(** ** The theorems at work on the device *)

Lemma right_swipe_files_then_moves_witness :
  calls (gesture 60 10 Runs.first_shown) =
    calls Runs.first_shown
    ++ classification_calls "likedPhotos" Device.photo2 (service Runs.first_shown)
  /\ service (gesture 60 10 Runs.first_shown) =
     Filing.classification_library "likedPhotos" Device.photo2
       (service Runs.first_shown)
  /\ photos (component (gesture 60 10 Runs.first_shown)) =
     photos (component Runs.first_shown)
  /\ currentIndex (component (gesture 60 10 Runs.first_shown)) = 1.
Proof.
  apply (right_swipe_files_then_moves Runs.first_shown 60 10 Device.photo2);
    vm_compute; reflexivity.
Defined.

(** C1 as the specification words it fails on the last photo: a rightward
    release that dominates and exceeds the threshold leaves the index at 1
    where the claim has it become 2. *)
Lemma right_swipe_on_last_photo_keeps_index :
  photos (component Runs.last_shown) <> []
  /\ currentIndex (component Runs.last_shown) = 1
  /\ (Qabs 0 < Qabs 60)%Q /\ (threshold < 60)%Q
  /\ currentIndex (component (gesture 60 0 Runs.last_shown)) = 1
  /\ currentIndex (component (gesture 60 0 Runs.last_shown))
     <> currentIndex (component Runs.last_shown) + 1.
Proof.
  vm_compute. repeat split; discriminate.
Qed.

Lemma swipe_advances_below_last_witness :
  phase (component (gesture 0 (-70) Runs.first_shown)) = Reviewing 1.
Proof.
  apply (swipe_advances_below_last Runs.first_shown 0 (-70) 0).
  - vm_compute; reflexivity.
  - vm_compute; split; [discriminate | reflexivity].
  - right. vm_compute; reflexivity.
Defined.

(** C2 as the specification words it fails at the last index: from
    Reviewing(1) over two photos an upward release exceeding the threshold
    leads back to Reviewing(1), not to Reviewing(2). *)
Lemma swipe_on_last_index_stays :
  phase (component Runs.last_shown) = Reviewing 1
  /\ 0 <= 1 < Z.of_nat (length (photos (component Runs.last_shown)))
  /\ exceeds_threshold 0 (-80)
  /\ phase (component (gesture 0 (-80) Runs.last_shown)) = Reviewing 1
  /\ phase (component (gesture 0 (-80) Runs.last_shown)) <> Reviewing (1 + 1).
Proof.
  split; [vm_compute; reflexivity|].
  split; [vm_compute; split; [discriminate | reflexivity]|].
  split; [right; vm_compute; reflexivity|].
  split; [vm_compute; reflexivity|].
  vm_compute. discriminate.
Qed.

Lemma left_swipe_only_moves_witness :
  calls (gesture (-60) 5 Runs.first_shown) = calls Runs.first_shown
  /\ service (gesture (-60) 5 Runs.first_shown) = service Runs.first_shown
  /\ console (gesture (-60) 5 Runs.first_shown) = console Runs.first_shown
  /\ photos (component (gesture (-60) 5 Runs.first_shown)) =
     photos (component Runs.first_shown)
  /\ currentIndex (component (gesture (-60) 5 Runs.first_shown)) = 1.
Proof.
  apply (left_swipe_only_moves Runs.first_shown (-60) 5); vm_compute; reflexivity.
Defined.

(** C3 as the specification words it fails on the last photo: a leftward
    release that dominates and exceeds the threshold leaves the index at 1
    where the claim has it become 2. *)
Lemma left_swipe_on_last_photo_keeps_index :
  (Qabs 7 < Qabs (-90))%Q /\ (-90 < - threshold)%Q
  /\ currentIndex (component Runs.last_shown) = 1
  /\ currentIndex (component (gesture (-90) 7 Runs.last_shown)) = 1
  /\ currentIndex (component (gesture (-90) 7 Runs.last_shown))
     <> currentIndex (component Runs.last_shown) + 1.
Proof.
  vm_compute. repeat split; discriminate.
Qed.

Lemma small_release_is_ignored_witness :
  dispatched 10 (-20) = None
  /\ onEnd (component Runs.first_shown) 10 (-20) Runs.first_shown
     = (Resolved tt, Runs.first_shown).
Proof.
  apply (small_release_is_ignored (component Runs.first_shown) Runs.first_shown
           10 (-20)); vm_compute; reflexivity.
Defined.

(** C5 as the specification words it fails on the diagonal: with equal
    absolute displacements no axis is the larger one, so the words select
    no direction, yet the callback takes its vertical branch and the photo
    is filed into "toDelete". *)
Lemma diagonal_release_is_dispatched :
  (Qabs 60 == Qabs 60)%Q
  /\ dispatch_spec 60 60 = None
  /\ dispatched 60 60 = Some down
  /\ calls (gesture 60 60 Runs.first_shown) =
     calls Runs.first_shown
     ++ [Call_getAlbum "toDelete";
         Call_createAlbum "toDelete" Device.photo2 false]
  /\ calls (gesture 60 60 Runs.first_shown) <> calls Runs.first_shown.
Proof.
  split; [reflexivity|]. vm_compute. repeat split. discriminate.
Qed.

Lemma current_photo_always_present_witness :
  0 <= currentIndex (component Runs.busy)
     < Z.of_nat (length (photos (component Runs.busy)))
  /\ is_Some (js_index (photos (component Runs.busy))
                       (currentIndex (component Runs.busy)))
  /\ is_Some (render (component Runs.busy))
  /\ error_no_photo ∉ console Runs.busy.
Proof.
  apply (current_photo_always_present "a2" Device.phone
           [pan_released 80 3; image_loaded; pan_released (-75) 20;
            pan_released 10 90; pan_released 5 (-61); pan_released 70 0]).
  vm_compute. discriminate.
Defined.

Lemma last_photo_is_filed_again_witness :
  component (swipes Runs.last_shown [right; down; right]) = component Runs.last_shown
  /\ service (swipes Runs.last_shown [right; down; right])
     = Filing.classification_libraries Device.photo1 [right; down; right]
         (service Runs.last_shown)
  /\ exists issued,
       calls (swipes Runs.last_shown [right; down; right]) =
         calls Runs.last_shown ++ issued
       /\ length (List.filter is_lookup issued) = 3%nat
       /\ Forall (fun c => is_mutation c = true -> submitted c = [Device.photo1])
                 issued.
Proof.
  apply (last_photo_is_filed_again Runs.last_shown Device.photo1).
  - vm_compute; reflexivity.
  - vm_compute; reflexivity.
  - repeat constructor; discriminate.
Defined.

Lemma albums_rendered_by_count_witness :
  exists data,
    AlbumListScreen.render (component (AlbumListScreen.loaded Device.phone))
      = AlbumListScreen.AlbumList data
    /\ map album_of Runs.counted
       = [Device.camera; Device.screenshots; Device.downloads]
    /\ Permutation Runs.counted data
    /\ StronglySorted AlbumListScreen.by_count data.
Proof.
  apply (albums_rendered_by_count Device.phone Device.phone Device.phone
           [Device.camera; Device.screenshots; Device.downloads] Runs.counted);
    vm_compute; reflexivity.
Defined.

Lemma permission_denied_stops_loading_witness :
  fst (AlbumListScreen.loadAlbums (AlbumListScreen.mount Device.locked_phone))
    = Resolved tt
  /\ AlbumListScreen.loading (component (AlbumListScreen.loaded Device.locked_phone))
     = false
  /\ AlbumListScreen.albums (component (AlbumListScreen.loaded Device.locked_phone))
     = []
  /\ calls (AlbumListScreen.loaded Device.locked_phone) = [Call_requestPermissions]
  /\ AlbumListScreen.render (component (AlbumListScreen.loaded Device.locked_phone))
     = AlbumListScreen.AlbumList []
  /\ console (AlbumListScreen.loaded Device.locked_phone) = [log_permission_denied]
  /\ service (AlbumListScreen.loaded Device.locked_phone) = Device.locked_phone.
Proof.
  apply (permission_denied_stops_loading Device.locked_phone Device.locked_phone
           denied).
  - vm_compute; reflexivity.
  - discriminate.
Defined.

(** * Further facts about the code *)

(** ** One classification, case by case *)

Section ClassificationFacts.
Context {L : Type} `{MediaLibraryService L}.
Import Shape.
Implicit Types (s : State) (w : World State L) (d : Direction).

(** X1.  The promise of [handleSwipe], and so the gesture callback that
    drops it, never rejects: whatever the direction, the render and the
    answers of the library, a failure ends in the [catch] block. *)
Theorem swipe_never_rejects s d w tx ty :
  fst (handleSwipe s d w) = Resolved tt
  /\ fst (onEnd s tx ty w) = Resolved tt.
Proof.
  assert (Hall : forall d', fst (handleSwipe s d' w) = Resolved tt).
  { intros d'. destruct (targetAlbum d') as [t|] eqn:Ht.
    - destruct (js_index (photos s) (currentIndex s)) as [p|] eqn:Hp.
      + rewrite (handleSwipe_cases s d' t p w Ht Hp). reflexivity.
      + rewrite (handleSwipe_no_photo s d' t w Ht Hp). reflexivity.
    - destruct d'; try discriminate.
      rewrite handleSwipe_left, moveToNextPhoto_run. reflexivity. }
  split; [apply Hall|].
  rewrite onEnd_dispatched. destruct (dispatched tx ty); [apply Hall|reflexivity].
Qed.

(** X2.  Whatever the render, the direction and the library, one run of
    [handleSwipe] issues at most two library calls, at most one of which
    changes the library; a first call is the lookup of the direction's
    album, and every call is that lookup, the creation of that album seeded
    with the current photo, or the addition of just the current photo,
    always with [copy] false. *)
Theorem swipe_calls_are_bounded s d w :
  exists issued,
    calls (snd (handleSwipe s d w)) = calls w ++ issued
    /\ (length issued <= 2)%nat
    /\ (length (List.filter is_mutation issued) <= 1)%nat
    /\ (forall c, head issued = Some c -> exists name, c = Call_getAlbum name)
    /\ Forall (allowed_call s d) issued.
Proof.
  destruct (targetAlbum d) as [t|] eqn:Ht.
  - destruct (js_index (photos s) (currentIndex s)) as [p|] eqn:Hp.
    + rewrite (handleSwipe_cases s d t p w Ht Hp). cbn [snd].
      destruct (getAlbumAsync t (service w)) as [[[album|]|e] l1].
      * destruct (addAssetsToAlbumAsync [p] album false l1) as [[ok|e] l2];
          eexists; (split; [reflexivity|]); cbn;
          (split; [lia|]); (split; [lia|]);
          (split; [intros c [= <-]; eexists; reflexivity|]);
          repeat constructor; cbn; rewrite ?Ht, ?Hp; eauto.
      * destruct (createAlbumAsync t p false l1) as [[[album|]|e] l2];
          eexists; (split; [reflexivity|]); cbn;
          (split; [lia|]); (split; [lia|]);
          (split; [intros c [= <-]; eexists; reflexivity|]);
          repeat constructor; cbn; rewrite ?Ht, ?Hp; eauto.
      * eexists; (split; [reflexivity|]); cbn.
        (split; [lia|]); (split; [lia|]).
        (split; [intros c [= <-]; eexists; reflexivity|]).
        repeat constructor; cbn; rewrite ?Ht; eauto.
    + rewrite (handleSwipe_no_photo s d t w Ht Hp). cbn.
      exists []. rewrite app_nil_r. cbn. repeat split; try lia; try constructor.
      intros c Hc; discriminate.
  - destruct d; try discriminate.
    rewrite handleSwipe_left, moveToNextPhoto_run. cbn.
    exists []. rewrite app_nil_r. cbn. repeat split; try lia; try constructor.
    intros c Hc; discriminate.
Qed.

(** X3.  A classification (a direction with a target album, a current
    photo) writes its outcome to the console exactly once, and by the
    answer of the lookup: when the lookup finds an album, the line for the
    photo added or one error line, and no not-found line; when it finds
    none, the not-found line followed by the line for the album created or
    one error line; when it rejects, the line of that error alone. *)
Theorem classification_writes_one_outcome s d t p w :
  targetAlbum d = Some t ->
  js_index (photos s) (currentIndex s) = Some p ->
  exists entries,
    console (snd (handleSwipe s d w)) = console w ++ entries
    /\ outcome_for t (fst (getAlbumAsync t (service w))) entries.
Proof.
  intros Ht Hp. rewrite (handleSwipe_cases s d t p w Ht Hp). cbn [snd].
  unfold outcome_for.
  destruct (getAlbumAsync t (service w)) as [[[album|]|e] l1]; cbn [fst].
  - destruct (addAssetsToAlbumAsync [p] album false l1) as [[ok|e] l2];
      eexists; (split; [reflexivity|]); eauto.
  - destruct (createAlbumAsync t p false l1) as [[[album|]|e] l2];
      eexists; (split; [reflexivity|]); eauto.
  - eexists; (split; [reflexivity|]); reflexivity.
Qed.

(** X4.  When the lookup of the target album rejects, the swipe issues no
    further call (nothing is created or added), writes the error to the
    console, and still moves to the next photo as [moveToNextPhoto] does. *)
Theorem lookup_failure_is_swallowed w d t p e (l1 : L) :
  targetAlbum d = Some t ->
  js_index (photos (component w)) (currentIndex (component w)) = Some p ->
  getAlbumAsync t (service w) = (Rejected e, l1) ->
  swipe w d =
  mkWorld (moved (component w) (component w)) l1
          (calls w ++ [Call_getAlbum t])
          (console w ++ [error_managing_photo e]).
Proof.
  intros Ht Hp Hlookup. unfold swipe.
  rewrite (handleSwipe_cases (component w) d t p w Ht Hp), Hlookup. reflexivity.
Qed.

(** X5.  When the lookup finds no album and the creation answers [null],
    the swipe reports 'Failed to create the album.' as an error on the
    console, after the line for the album not found, and still moves to the
    next photo. *)
Theorem null_album_is_reported w d t p (l1 l2 : L) :
  targetAlbum d = Some t ->
  js_index (photos (component w)) (currentIndex (component w)) = Some p ->
  getAlbumAsync t (service w) = (Resolved None, l1) ->
  createAlbumAsync t p false l1 = (Resolved None, l2) ->
  swipe w d =
  mkWorld (moved (component w) (component w)) l2
          (calls w ++ [Call_getAlbum t; Call_createAlbum t p false])
          (console w ++ [log_album_not_found t;
                         error_managing_photo "Failed to create the album."]).
Proof.
  intros Ht Hp Hlookup Hcreate. unfold swipe.
  rewrite (handleSwipe_cases (component w) d t p w Ht Hp), Hlookup, Hcreate.
  reflexivity.
Qed.

End ClassificationFacts.

(** ** Loading, and what a session keeps *)

Section LoadFacts.
Context {L : Type} `{MediaLibraryService L}.
Import Shape.
Implicit Types (s : State) (w : World State L).

Lemma opened_resolved albumId (l l' : L) page :
  getAssetsAsync (photoOptions albumId) l = (Resolved page, l') ->
  opened albumId l =
  mkWorld (mkState (rev (assets page)) 0 false true) l'
          [Call_getAssets (photoOptions albumId)] [log_photos []].
Proof.
  intros Hload. unfold opened, loadPhotos, bind, await, mount. cbn.
  rewrite Hload. reflexivity.
Qed.

Lemma opened_rejected albumId (l l' : L) e :
  getAssetsAsync (photoOptions albumId) l = (Rejected e, l') ->
  opened albumId l =
  mkWorld initial l' [Call_getAssets (photoOptions albumId)] [].
Proof.
  intros Hload. unfold opened, loadPhotos, bind, await, mount. cbn.
  rewrite Hload. reflexivity.
Qed.

Lemma step_component w e :
  component (step w e) = component w
  \/ component (step w e) = moved (component w) (component w)
     /\ is_pan e = true
  \/ component (step w e) =
       mkState (photos (component w)) (currentIndex (component w))
               (loading (component w)) false.
Proof.
  destruct e as [tx ty| |l']; cbn.
  - destruct (interactive (component w)) eqn:Hint; [|left; reflexivity].
    rewrite onEnd_dispatched. destruct (dispatched tx ty) as [d|]; [|left; reflexivity].
    right; left. split; [|reflexivity].
    apply handleSwipe_moved, interactive_current_photo, Hint.
  - destruct (interactive (component w)); [right; right|left]; reflexivity.
  - left; reflexivity.
Qed.

Lemma step_keeps_photos w e :
  photos (component (step w e)) = photos (component w)
  /\ loading (component (step w e)) = loading (component w).
Proof.
  destruct (step_component w e) as [->|[[-> _]| ->]].
  - split; reflexivity.
  - split; [apply moved_photos|apply moved_loading].
  - split; reflexivity.
Qed.

Lemma run_keeps_photos w events :
  photos (component (run w events)) = photos (component w)
  /\ loading (component (run w events)) = loading (component w).
Proof.
  revert w. induction events as [|e events IH]; intros w; [split; reflexivity|].
  destruct (IH (step w e)) as [Hp Hl].
  destruct (step_keeps_photos w e) as [Hp' Hl'].
  unfold run in *. cbn. split; congruence.
Qed.

(** While the photo view is not what the component renders, no event but
    a change of the library from outside changes anything. *)
Lemma step_idle w e :
  interactive (component w) = false ->
  component (step w e) = component w
  /\ calls (step w e) = calls w
  /\ console (step w e) = console w.
Proof.
  intros Hidle. destruct e as [tx ty| |l']; cbn; rewrite ?Hidle; repeat split.
Qed.

Lemma run_idle w events :
  interactive (component w) = false ->
  component (run w events) = component w
  /\ calls (run w events) = calls w
  /\ console (run w events) = console w.
Proof.
  revert w. induction events as [|e events IH]; intros w Hidle; [repeat split|].
  destruct (step_idle w e Hidle) as (Hc & Hcalls & Hcons).
  destruct (IH (step w e)) as (Hc' & Hcalls' & Hcons'); [rewrite Hc; exact Hidle|].
  unfold run in *. cbn. repeat split; congruence.
Qed.

(** X6.  The photo sequence is fixed when the load effect settles: no
    event of a session (swipe, image load, change of the library from
    outside) changes [photos] or brings the loading flag back. *)
Theorem session_keeps_photos albumId (l : L) (events : list (Event L)) :
  photos (component (session albumId l events))
    = photos (component (opened albumId l))
  /\ loading (component (session albumId l events))
     = loading (component (opened albumId l)).
Proof. apply run_keeps_photos. Qed.

(** X7.  When the library answers the load with no asset, the screen
    shows the message for an empty album whatever events follow, and the
    load query stays the only library call ever issued. *)
Theorem empty_album_shows_message albumId (l l' : L) page
    (events : list (Event L)) :
  getAssetsAsync (photoOptions albumId) l = (Resolved page, l') ->
  assets page = [] ->
  render (component (session albumId l events)) = Some NoPhotos
  /\ calls (session albumId l events) = [Call_getAssets (photoOptions albumId)]
  /\ currentIndex (component (session albumId l events)) = 0.
Proof.
  intros Hload Hempty. unfold session.
  rewrite (opened_resolved albumId l l' page Hload), Hempty.
  destruct (run_idle
              (mkWorld (mkState (rev []) 0 false true) l'
                       [Call_getAssets (photoOptions albumId)] [log_photos []])
              events eq_refl) as (-> & -> & _).
  repeat split.
Qed.

(** X8.  When the load query rejects, nothing catches it: the state stays
    the initial one, so the screen shows its loading indicator whatever
    events follow, and no further library call is issued. *)
Theorem failed_load_keeps_loading albumId (l l' : L) e (events : list (Event L)) :
  getAssetsAsync (photoOptions albumId) l = (Rejected e, l') ->
  fst (loadPhotos albumId initial (mount l)) = Rejected e
  /\ component (session albumId l events) = initial
  /\ render (component (session albumId l events)) = Some LoadingPhotos
  /\ calls (session albumId l events) = [Call_getAssets (photoOptions albumId)]
  /\ console (session albumId l events) = [].
Proof.
  intros Hload. split.
  { unfold loadPhotos, bind, await, mount. cbn. rewrite Hload. reflexivity. }
  unfold session. rewrite (opened_rejected albumId l l' e Hload).
  destruct (run_idle
              (mkWorld initial l' [Call_getAssets (photoOptions albumId)] [])
              events eq_refl) as (-> & -> & ->).
  repeat split.
Qed.

(** X9.  The photos are shown in the reverse of the order the library
    answered: throughout a session over a page of [n] assets the photo view
    shows "Photo k of n" with [1 <= k <= n] and the image of the asset at
    position [n - k] of the page, so the first photo shown is the last asset
    of the page. *)
Theorem photos_shown_in_reverse albumId (l l' : L) page (events : list (Event L))
    overlay uri position total :
  getAssetsAsync (photoOptions albumId) l = (Resolved page, l') ->
  render (component (session albumId l events))
    = Some (PhotoView overlay uri position total) ->
  total = length (assets page)
  /\ 1 <= position <= Z.of_nat total
  /\ exists p,
       assets page !! (total - Z.to_nat position)%nat = Some p
       /\ asset_uri p = uri.
Proof.
  intros Hload Hview.
  destruct (session_keeps_photos albumId l events) as [Hph Hld].
  rewrite (opened_resolved albumId l l' page Hload) in Hph, Hld. cbn in Hph, Hld.
  unfold render in Hview. rewrite Hld, Hph in Hview.
  destruct (decide (length (rev (assets page)) = 0%nat)); [discriminate|].
  destruct (js_index (rev (assets page))
              (currentIndex (component (session albumId l events))))
    as [p|] eqn:Hp; [|discriminate].
  injection Hview as _ <- <- <-.
  assert (Hrange : is_Some (js_index (rev (assets page))
              (currentIndex (component (session albumId l events)))))
    by (rewrite Hp; eexists; reflexivity).
  apply js_index_Some in Hrange. rewrite length_rev in *.
  split; [reflexivity|]. split; [lia|].
  exists p. split; [|reflexivity].
  unfold js_index in Hp.
  destruct (currentIndex (component (session albumId l events)) <? 0) eqn:E;
    [discriminate|].
  rewrite rev_alt in Hp.
  change (rev_append (assets page) []) with (reverse (assets page)) in Hp.
  rewrite reverse_lookup in Hp by lia.
  rewrite <- Hp. f_equal. lia.
Qed.

End LoadFacts.

(** ** How the index and the overlay move *)

Section ProgressFacts.
Context {L : Type} `{MediaLibraryService L}.
Import Shape.
Implicit Types (s : State) (w : World State L).

Lemma moved_index_step s :
  currentIndex s <= currentIndex (moved s s) <= currentIndex s + 1.
Proof.
  unfold moved.
  destruct (currentIndex s <? Z.of_nat (length (photos s)) - 1); cbn; lia.
Qed.

Lemma step_index w e :
  currentIndex (component w) <= currentIndex (component (step w e))
    <= currentIndex (component w) + (if is_pan e then 1 else 0).
Proof.
  destruct (step_component w e) as [->|[[-> ->]| ->]].
  - destruct (is_pan e); lia.
  - apply moved_index_step.
  - cbn. destruct (is_pan e); lia.
Qed.

Lemma run_index w events :
  currentIndex (component w) <= currentIndex (component (run w events))
    <= currentIndex (component w) + Z.of_nat (pans events).
Proof.
  revert w. induction events as [|e events IH]; intros w.
  - cbn. lia.
  - pose proof (step_index w e) as Hstep. pose proof (IH (step w e)) as Hrest.
    unfold run in *. cbn [foldl]. unfold pans in *. cbn [List.filter].
    destruct (is_pan e); cbn [length] in *; lia.
Qed.

(** X10.  When each swipe is handled before the next event, the index
    never goes back and moves by at most one per pan release: after any
    events it is at most the number of releases among them, and further
    events can only leave it or raise it. *)
Theorem index_advances_one_release_at_a_time albumId (l : L)
    (events more : list (Event L)) :
  currentIndex (component (session albumId l events)) <= Z.of_nat (pans events)
  /\ currentIndex (component (session albumId l events))
     <= currentIndex (component (session albumId l (events ++ more))).
Proof.
  split.
  - pose proof (run_index (opened albumId l) events) as Hrun.
    rewrite opened_index in Hrun. unfold session. lia.
  - unfold session, run. rewrite foldl_app.
    apply (run_index (foldl step (opened albumId l) events) more).
Qed.

(** X11.  While the photo view is shown, a pan release raises the image
    loading overlay exactly when it changes the index, and leaves the flag
    as it was otherwise (a swipe on the last photo, an ignored release);
    the image's [onLoad] lowers the flag and changes nothing else. *)
Theorem overlay_follows_index w tx ty :
  interactive (component w) = true ->
  imageLoading (component (gesture tx ty w)) =
    (if currentIndex (component (gesture tx ty w)) =? currentIndex (component w)
     then imageLoading (component w) else true)
  /\ snd (onLoad w) =
     mkWorld (mkState (photos (component w)) (currentIndex (component w))
                      (loading (component w)) false)
             (service w) (calls w) (console w).
Proof.
  intros Hint. split; [|reflexivity].
  unfold gesture. rewrite onEnd_dispatched.
  destruct (dispatched tx ty) as [d|]; [|cbn; rewrite Z.eqb_refl; reflexivity].
  rewrite handleSwipe_moved by (apply interactive_current_photo, Hint).
  unfold moved.
  destruct (currentIndex (component w)
            <? Z.of_nat (length (photos (component w))) - 1); cbn.
  - destruct (currentIndex (component w) + 1 =? currentIndex (component w)) eqn:E;
      [apply Z.eqb_eq in E; lia | reflexivity].
  - rewrite Z.eqb_refl. reflexivity.
Qed.

(** X12.  A release is ignored exactly when neither absolute displacement
    exceeds the threshold; a displacement of exactly 50 does not count. *)
Theorem ignored_iff_within_threshold tx ty :
  dispatched tx ty = None
  <-> (Qabs tx <= threshold)%Q /\ (Qabs ty <= threshold)%Q.
Proof.
  unfold dispatched, threshold. split.
  - q_abs tx; q_abs ty; q_branch; intros Hd; try discriminate; split; lra.
  - intros [Hx Hy].
    q_abs tx; q_abs ty; q_branch; try reflexivity; exfalso; lra.
Qed.

(** X13.  Which direction a release dispatches: right or left exactly when
    the horizontal displacement is strictly the larger in absolute value
    and passes the threshold to the right or to the left; down or up
    exactly when the vertical displacement is at least as large in absolute
    value and passes the threshold downwards (positive) or upwards
    (negative).  On the diagonal the vertical axis decides. *)
Theorem dispatched_direction tx ty :
  (dispatched tx ty = Some right
     <-> (Qabs ty < Qabs tx)%Q /\ (threshold < tx)%Q)
  /\ (dispatched tx ty = Some left
     <-> (Qabs ty < Qabs tx)%Q /\ (tx < - threshold)%Q)
  /\ (dispatched tx ty = Some down
     <-> (Qabs tx <= Qabs ty)%Q /\ (threshold < ty)%Q)
  /\ (dispatched tx ty = Some up
     <-> (Qabs tx <= Qabs ty)%Q /\ (ty < - threshold)%Q).
Proof.
  unfold dispatched, threshold.
  split; [|split; [|split]];
    (split;
     [ q_branch; intros Hd; try discriminate; split; lra
     | intros [Hdom Hthr]; q_branch; try reflexivity; exfalso; lra ]).
Qed.

End ProgressFacts.

(** ** Loading the album list *)

Section AlbumLoadFacts.
Context {L : Type} `{MediaLibraryService L}.
Import Shape.

(** The count queries touch neither the state cell nor the console, and
    all of them are issued, in order, whether they resolve or reject. *)
Lemma promise_all_withCount (albums : list Album)
    (w : World AlbumListScreen.State L) :
  calls (snd (promise_all (map AlbumListScreen.withCount albums) w))
    = calls w ++ count_queries albums
  /\ component (snd (promise_all (map AlbumListScreen.withCount albums) w))
     = component w
  /\ console (snd (promise_all (map AlbumListScreen.withCount albums) w))
     = console w.
Proof.
  revert w. induction albums as [|a albums IH]; intros w.
  - cbn. rewrite app_nil_r. repeat split.
  - cbn [map promise_all count_queries].
    unfold AlbumListScreen.withCount at 1 4 7, bind, await, ret.
    destruct (getAssetsAsync (AlbumListScreen.countOptions a) (service w))
      as [[page|e] l1].
    + match goal with
      | |- context [promise_all _ ?w1] => destruct (IH w1) as (Hc & Hs & Ho)
      end.
      cbn in Hc, Hs, Ho.
      destruct (promise_all (map AlbumListScreen.withCount albums) _)
        as [[rest|e] w2]; cbn in *; rewrite Hc, <- app_assoc; repeat split;
        assumption.
    + match goal with
      | |- context [promise_all _ ?w1] => destruct (IH w1) as (Hc & Hs & Ho)
      end.
      cbn in *. rewrite Hc, <- app_assoc. repeat split; assumption.
Qed.

(** X14.  Once permission is granted and the albums are enumerated, the
    effect issues exactly one count query per album, for that album's id
    and in enumeration order, after the permission request and the
    enumeration; all of them are issued even when some of them reject. *)
Theorem every_album_is_counted (l l1 l2 : L) (albums : list Album) :
  requestPermissionsAsync l = (Resolved granted, l1) ->
  getAlbumsAsync l1 = (Resolved albums, l2) ->
  calls (AlbumListScreen.loaded l)
  = [Call_requestPermissions; Call_getAlbums] ++ count_queries albums.
Proof.
  intros Hperm Halbums.
  unfold AlbumListScreen.loaded, AlbumListScreen.loadAlbums,
    AlbumListScreen.mount, bind, await.
  cbn. rewrite Hperm. cbn.
  destruct (decide (granted <> granted)) as [Hne|_]; [contradiction|].
  cbn. rewrite Halbums. cbn.
  match goal with
  | |- context [promise_all _ ?w1] =>
      destruct (promise_all_withCount albums w1) as (Hc & _ & _);
      destruct (promise_all (map AlbumListScreen.withCount albums) w1)
        as [[awc|e] w2]
  end; cbn in *; exact Hc.
Qed.

(** X15.  The effect of the album list has no [catch]: when a library
    call rejects (the permission request, or with permission granted the
    enumeration or one of the count queries), the promise of the effect
    rejects, the state stays the initial one, so the screen keeps its
    loading indicator, and nothing is written to the console. *)
Theorem rejected_call_keeps_album_list_loading (l : L) :
  Filing.some_call_rejects l ->
  (exists e, fst (AlbumListScreen.loadAlbums (AlbumListScreen.mount l))
             = Rejected e)
  /\ component (AlbumListScreen.loaded l) = AlbumListScreen.initial
  /\ AlbumListScreen.render (component (AlbumListScreen.loaded l))
     = AlbumListScreen.LoadingAlbums
  /\ console (AlbumListScreen.loaded l) = [].
Proof.
  intros Hrej.
  assert (Hgoal :
    (exists e, fst (AlbumListScreen.loadAlbums (AlbumListScreen.mount l))
               = Rejected e)
    /\ component (AlbumListScreen.loaded l) = AlbumListScreen.initial
    /\ console (AlbumListScreen.loaded l) = []).
  { unfold AlbumListScreen.loaded, AlbumListScreen.loadAlbums,
      AlbumListScreen.mount, bind, await. cbn.
    destruct Hrej as [(e & l1 & Hperm)|(l1 & Hperm & Hrest)]; rewrite Hperm; cbn.
    - split; [eexists; reflexivity|split; reflexivity].
    - destruct (decide (granted <> granted)) as [Hne|_]; [contradiction|]. cbn.
      destruct Hrest as [(e & l2 & Halbums)|(albums & l2 & Halbums & Hcounts)];
        rewrite Halbums; cbn.
      + split; [eexists; reflexivity|split; reflexivity].
      + match goal with
        | |- context [promise_all _ ?w1] =>
            pose proof (promise_all_library_counts albums w1) as Hall;
            destruct (promise_all_withCount albums w1) as (_ & Hs & Ho);
            destruct (promise_all (map AlbumListScreen.withCount albums) w1)
              as [r w2]
        end.
        cbn [service] in Hall. rewrite Hcounts in Hall.
        destruct Hall as [e Hall]. cbn in Hall. subst r. cbn in *.
        split; [eexists; reflexivity|split; assumption]. }
  destruct Hgoal as (Hprom & Hcomp & Hcons).
  split; [exact Hprom|]. split; [exact Hcomp|]. split; [|exact Hcons].
  rewrite Hcomp. reflexivity.
Qed.

Lemma filter_sort_insert (k : Z) (x : AlbumWithCount) (xs : list AlbumWithCount) :
  List.filter (fun a => assetCount a =? k)
              (sort_insert AlbumListScreen.compareFn x xs)
  = List.filter (fun a => assetCount a =? k) (x :: xs).
Proof.
  induction xs as [|y xs IH]; [reflexivity|].
  cbn [sort_insert]. unfold AlbumListScreen.compareFn at 1.
  destruct (0 <? assetCount y - assetCount x) eqn:E; [|reflexivity].
  apply Z.ltb_lt in E. cbn [List.filter] in *. rewrite IH.
  destruct (assetCount x =? k) eqn:Ex, (assetCount y =? k) eqn:Ey;
    try reflexivity.
  apply Z.eqb_eq in Ex, Ey. lia.
Qed.

(** X16.  The sort of the album list is stable: albums with the same
    asset count are rendered in the order the library enumerated them. *)
Theorem equal_counts_keep_enumeration_order (xs : list AlbumWithCount) (k : Z) :
  List.filter (fun a => assetCount a =? k)
              (js_sort AlbumListScreen.compareFn xs)
  = List.filter (fun a => assetCount a =? k) xs.
Proof.
  induction xs as [|x xs IH]; [reflexivity|].
  cbn [js_sort foldr]. fold (js_sort AlbumListScreen.compareFn xs).
  rewrite filter_sort_insert. cbn [List.filter]. rewrite IH. reflexivity.
Qed.

(** The rows rendered are rows of albums the library enumerated. *)
Lemma rendered_rows (l l1 l2 : L) (albums : list Album) data :
  requestPermissionsAsync l = (Resolved granted, l1) ->
  getAlbumsAsync l1 = (Resolved albums, l2) ->
  AlbumListScreen.render (component (AlbumListScreen.loaded l))
    = AlbumListScreen.AlbumList data ->
  forall item, item ∈ data -> album_of item ∈ albums.
Proof.
  intros Hperm Halbums Hview item Hitem.
  unfold AlbumListScreen.loaded, AlbumListScreen.loadAlbums,
    AlbumListScreen.mount, bind, await in Hview.
  cbn in Hview. rewrite Hperm in Hview. cbn in Hview.
  destruct (decide (granted <> granted)) as [Hne|_]; [contradiction|].
  cbn in Hview. rewrite Halbums in Hview. cbn in Hview.
  match type of Hview with
  | context [promise_all _ ?w1] =>
      destruct (promise_all_withCount albums w1) as (_ & Hs & _);
      destruct (promise_all (map AlbumListScreen.withCount albums) w1)
        as [[awc|e] w2] eqn:Hall
  end; cbn in Hview, Hs; [|rewrite Hs in Hview; discriminate].
  injection Hview as <-.
  rewrite <- (withCount_all_albums albums _ _ awc Hall).
  apply list_elem_of_fmap. exists item. split; [reflexivity|].
  rewrite (js_sort_Permutation AlbumListScreen.compareFn awc). exact Hitem.
Qed.

(** X17.  Tapping a row of the loaded album list puts the 'Photos' screen
    on top with the title of that row's album as header, and the effect of
    that screen queries the photos of exactly that album: one query for the
    album's id, photos only, at most 1000, by creation time.  The album is
    one the library enumerated. *)
Theorem tapped_row_opens_its_album (l l1 l2 l' : L) (albums : list Album)
    data item :
  requestPermissionsAsync l = (Resolved granted, l1) ->
  getAlbumsAsync l1 = (Resolved albums, l2) ->
  AlbumListScreen.render (component (AlbumListScreen.loaded l))
    = AlbumListScreen.AlbumList data ->
  item ∈ data ->
  album_of item ∈ albums
  /\ App.present (App.onPress item) l'
     = Some (App.Photos (title (album_of item))
                        (opened (album_id (album_of item)) l'))
  /\ calls (opened (album_id (album_of item)) l')
     = [Call_getAssets
          (mkAssetsOptions (album_id (album_of item)) (Some photo) (Some 1000)
                           [SortBy_creationTime])].
Proof.
  intros Hperm Halbums Hview Hitem.
  split; [eapply rendered_rows; eassumption|]. split; [reflexivity|].
  unfold opened, loadPhotos, bind, await, mount. cbn.
  destruct (getAssetsAsync _ l') as [[page|e] l'']; reflexivity.
Qed.

End AlbumLoadFacts.

(** ** A handler that resumes late *)

Section LateHandlerFacts.
Context {L : Type} `{MediaLibraryService L}.
Import Interleaved.

(** X19.  A handler that ends after other swipes were handled writes the
    index of the render it closed over plus one, not the current index plus
    one: when that render was not on its last photo, the index becomes the
    closure's index plus one whatever it was (so it can go back), the
    overlay is raised and the photos are kept. *)
Theorem late_handler_overwrites_index (task : Task) (w : World State L) :
  snd (resume task w) = None ->
  currentIndex (closure task) < Z.of_nat (length (photos (closure task))) - 1 ->
  currentIndex (component (fst (resume task w))) = currentIndex (closure task) + 1
  /\ imageLoading (component (fst (resume task w))) = true
  /\ photos (component (fst (resume task w))) = photos (component w).
Proof.
  intros Hend Hlast. apply Z.ltb_lt in Hlast.
  destruct task as [s t p [[album|]|e] | s t [[album|]|e] | s t [ok|e]];
    cbn [resume closure] in *;
    try (unfold failed, succeeded, bind, console_write;
         rewrite moveToNextPhoto_run; unfold moved; rewrite Hlast; cbn;
         repeat split).
  - unfold await in Hend.
    destruct (addAssetsToAlbumAsync [p] album false (service w)); discriminate.
  - unfold await, console_write in Hend. cbn in Hend.
    destruct (createAlbumAsync t p false (service w)); discriminate.
Qed.

End LateHandlerFacts.

(** ** What a session asks of the library *)

Section SessionCallFacts.
Context {L : Type} `{MediaLibraryService L}.
Import Shape.
Implicit Types (s : State) (w : World State L).

Lemma targetAlbum_names d t :
  targetAlbum d = Some t ->
  t ∈ ["likedPhotos"; "superlikedPhotos"; "toDelete"]%string.
Proof.
  destruct d; intros [= <-]; rewrite !elem_of_cons; auto.
Qed.

Lemma js_index_elem_of (xs : list Asset) (i : Z) (p : Asset) :
  js_index xs i = Some p -> p ∈ xs.
Proof.
  unfold js_index. destruct (i <? 0); [discriminate|].
  apply list_elem_of_lookup_2.
Qed.

Lemma handleSwipe_session_calls albumId s d w :
  exists issued,
    calls (snd (handleSwipe s d w)) = calls w ++ issued
    /\ Forall (session_call albumId (photos s)) issued.
Proof.
  destruct (targetAlbum d) as [t|] eqn:Ht.
  - pose proof (targetAlbum_names d t Ht) as Hname.
    destruct (js_index (photos s) (currentIndex s)) as [p|] eqn:Hp.
    + pose proof (js_index_elem_of _ _ _ Hp) as Hin.
      rewrite (handleSwipe_cases s d t p w Ht Hp). cbn [snd].
      destruct (getAlbumAsync t (service w)) as [[[album|]|e] l1].
      * destruct (addAssetsToAlbumAsync [p] album false l1) as [[ok|e] l2];
          eexists; (split; [reflexivity|]);
          repeat (apply Forall_cons; split); try apply Forall_nil; cbn; eauto 10.
      * destruct (createAlbumAsync t p false l1) as [[[album|]|e] l2];
          eexists; (split; [reflexivity|]);
          repeat (apply Forall_cons; split); try apply Forall_nil; cbn; eauto 10.
      * eexists; (split; [reflexivity|]);
          repeat (apply Forall_cons; split); try apply Forall_nil; cbn; eauto 10.
    + rewrite (handleSwipe_no_photo s d t w Ht Hp). cbn.
      exists []. rewrite app_nil_r. split; [reflexivity|constructor].
  - destruct d; try discriminate.
    rewrite handleSwipe_left, moveToNextPhoto_run. cbn.
    exists []. rewrite app_nil_r. split; [reflexivity|constructor].
Qed.

Lemma step_session_calls albumId w e :
  Forall (session_call albumId (photos (component w))) (calls w) ->
  Forall (session_call albumId (photos (component (step w e)))) (calls (step w e)).
Proof.
  intros Hcalls. destruct (step_keeps_photos w e) as [-> _].
  destruct e as [tx ty| |l']; cbn.
  - destruct (interactive (component w)); [|exact Hcalls].
    rewrite onEnd_dispatched. destruct (dispatched tx ty) as [d|]; [|exact Hcalls].
    destruct (handleSwipe_session_calls albumId (component w) d w)
      as (issued & -> & Hissued).
    apply Forall_app. split; assumption.
  - destruct (interactive (component w)); exact Hcalls.
  - exact Hcalls.
Qed.

(** X20.  All a review session ever asks of the library is: the load
    query for its album, lookups of "likedPhotos", "superlikedPhotos" and
    "toDelete", and creations or additions into those that file a single
    photo of the loaded sequence, never as a copy.  It never requests
    permission, never enumerates albums and never queries another album. *)
Theorem session_calls_stay_in_album albumId (l : L) (events : list (Event L)) :
  Forall (session_call albumId (photos (component (session albumId l events))))
         (calls (session albumId l events)).
Proof.
  unfold session.
  assert (Hinit : Forall (session_call albumId (photos (component (opened albumId l))))
                         (calls (opened albumId l))).
  { unfold opened, loadPhotos, bind, await, mount. cbn.
    destruct (getAssetsAsync (photoOptions albumId) l) as [[page|e] l'];
      repeat constructor. }
  revert Hinit. generalize (opened albumId l).
  induction events as [|e events IH]; intros w Hw; [exact Hw|].
  cbn. apply IH, step_session_calls, Hw.
Qed.

Lemma interactive_intro s :
  loading s = false -> photos s <> [] ->
  0 <= currentIndex s < Z.of_nat (length (photos s)) ->
  interactive s = true.
Proof.
  intros Hload Hne Hrange. unfold interactive, render. rewrite Hload.
  destruct (decide (length (photos s) = 0%nat)) as [Hlen|_].
  - destruct (photos s); [contradiction|discriminate].
  - destruct (proj2 (js_index_Some (photos s) (currentIndex s)) Hrange) as [p ->].
    reflexivity.
Qed.

Lemma run_swipes w events :
  loading (component w) = false ->
  0 <= currentIndex (component w) < Z.of_nat (length (photos (component w))) ->
  Forall is_swipe events ->
  currentIndex (component (run w events))
  = Z.min (currentIndex (component w) + Z.of_nat (length events))
          (Z.of_nat (length (photos (component w))) - 1).
Proof.
  intros Hload Hrange Hev. revert w Hload Hrange.
  induction Hev as [|e events He Hev IH]; intros w Hload Hrange.
  - cbn. lia.
  - destruct e as [tx ty| |l']; try contradiction. cbn in He.
    assert (Hne : photos (component w) <> []).
    { intros Hnil. rewrite Hnil in Hrange. cbn in Hrange. lia. }
    pose proof (interactive_intro _ Hload Hne Hrange) as Hint.
    destruct (dispatched_exceeds tx ty He) as [d Hd].
    assert (Hstep : component (step w (pan_released tx ty))
                    = moved (component w) (component w)).
    { cbn. rewrite Hint, onEnd_dispatched, Hd.
      apply handleSwipe_moved, interactive_current_photo, Hint. }
    unfold run in *. cbn [foldl].
    rewrite IH; rewrite Hstep, ?moved_photos, ?moved_loading; try assumption.
    + rewrite moved_index by reflexivity.
      destruct (currentIndex (component w)
                <? Z.of_nat (length (photos (component w))) - 1) eqn:E;
        [apply Z.ltb_lt in E | apply Z.ltb_ge in E]; cbn [length]; lia.
    + rewrite moved_index by reflexivity.
      destruct (currentIndex (component w)
                <? Z.of_nat (length (photos (component w))) - 1) eqn:E;
        [apply Z.ltb_lt in E | apply Z.ltb_ge in E]; lia.
Qed.

(** X21.  Over a page of [n > 0] assets, after [k] pan releases that each
    exceed the threshold (in any directions, each handled before the
    next) the index is the smaller of [k] and [n - 1]: every swipe shows
    the next photo until the last one is reached, and the last one stays. *)
Theorem index_after_swipes albumId (l l' : L) page (events : list (Event L)) :
  getAssetsAsync (photoOptions albumId) l = (Resolved page, l') ->
  assets page <> [] ->
  Forall is_swipe events ->
  currentIndex (component (session albumId l events))
  = Z.min (Z.of_nat (length events)) (Z.of_nat (length (assets page)) - 1).
Proof.
  intros Hload Hne Hev. unfold session.
  rewrite (opened_resolved albumId l l' page Hload).
  rewrite run_swipes; [| reflexivity | | exact Hev].
  - cbn. rewrite length_rev. reflexivity.
  - cbn. rewrite length_rev. destruct (assets page); [contradiction|cbn; lia].
Qed.

End SessionCallFacts.

(** ** When the index is written *)

Section SuspensionFacts.
Context {L : Type} `{MediaLibraryService L}.
Import Interleaved.

(** X22.  A classifying swipe does not touch the state cell before the
    library has answered: up to its first await, and from an answer to the
    next await, the handler leaves the index, the photos and the flags as
    they are; only its last stretch, after the creation or the addition has
    settled or a call has failed, calls [moveToNextPhoto]. *)
Theorem index_waits_for_the_library s d t p (w : World State L)
    (task : Task) :
  targetAlbum d = Some t ->
  js_index (photos s) (currentIndex s) = Some p ->
  component (fst (start s d w)) = component w
  /\ is_Some (snd (start s d w))
  /\ (is_Some (snd (resume task w)) ->
      component (fst (resume task w)) = component w).
Proof.
  intros Ht Hp. unfold start. rewrite Ht, Hp. unfold await.
  destruct (getAlbumAsync t (service w)) as [answer l1]. cbn.
  split; [reflexivity|]. split; [eexists; reflexivity|].
  destruct task as [s' t' p' [[album|]|e] | s' t' [[album|]|e] | s' t' [ok|e]];
    cbn [resume]; try (intros [? Hsome]; discriminate).
  - unfold await.
    destruct (addAssetsToAlbumAsync [p'] album false (service w)). reflexivity.
  - unfold await, console_write. cbn.
    destruct (createAlbumAsync t' p' false (service w)). reflexivity.
Qed.

End SuspensionFacts.

(** ** Swipes made before the library answers *)

Section QuickSwipeFacts.
Context {L : Type} `{MediaLibraryService L}.
Import Interleaved.

(** A classifying release suspends its handler at the lookup. *)
Lemma released_suspends (σ : System L) tx ty d t p :
  interactive (component (world σ)) = true ->
  dispatched tx ty = Some d -> targetAlbum d = Some t ->
  js_index (photos (component (world σ))) (currentIndex (component (world σ)))
    = Some p ->
  exists answer l1,
    step σ (released tx ty) =
    mkSystem (mkWorld (component (world σ)) l1
                      (calls (world σ) ++ [Call_getAlbum t])
                      (console (world σ)))
             (pending σ ++ [at_lookup (component (world σ)) t p answer]).
Proof.
  intros Hint Hd Ht Hp. cbn [step]. rewrite Hint, Hd.
  unfold start. rewrite Ht, Hp. unfold await.
  destruct (getAlbumAsync t (service (world σ))) as [answer l1].
  exists answer, l1. reflexivity.
Qed.

(** X23.  Two classifying swipes released one after the other before the
    library has answered the first are both handled by the same render:
    both look their album up for the same current photo, the index is
    still where it was, and both suspended handlers will later write that
    render's index plus one. *)
Theorem quick_swipes_classify_the_same_photo (σ : System L)
    tx1 ty1 d1 t1 tx2 ty2 d2 t2 :
  interactive (component (world σ)) = true ->
  pending σ = [] ->
  dispatched tx1 ty1 = Some d1 -> targetAlbum d1 = Some t1 ->
  dispatched tx2 ty2 = Some d2 -> targetAlbum d2 = Some t2 ->
  exists p answer1 answer2,
    js_index (photos (component (world σ))) (currentIndex (component (world σ)))
      = Some p
    /\ pending (step (step σ (released tx1 ty1)) (released tx2 ty2))
       = [at_lookup (component (world σ)) t1 p answer1;
          at_lookup (component (world σ)) t2 p answer2]
    /\ component (world (step (step σ (released tx1 ty1)) (released tx2 ty2)))
       = component (world σ).
Proof.
  intros Hint Hpend Hd1 Ht1 Hd2 Ht2.
  destruct (interactive_current_photo _ Hint) as [p Hp].
  destruct (released_suspends σ tx1 ty1 d1 t1 p Hint Hd1 Ht1 Hp)
    as (answer1 & l1 & ->).
  rewrite Hpend.
  match goal with
  | |- context [step ?σ1 (released tx2 ty2)] =>
      destruct (released_suspends σ1 tx2 ty2 d2 t2 p Hint Hd2 Ht2 Hp)
        as (answer2 & l2 & ->)
  end.
  exists p, answer1, answer2. split; [exact Hp|]. split; reflexivity.
Qed.

End QuickSwipeFacts.

(** ** The further facts at work on the device *)

Lemma classification_writes_one_outcome_witness :
  exists entries,
    console (snd (handleSwipe (component Runs.first_shown) right Runs.first_shown))
      = console Runs.first_shown ++ entries
    /\ Shape.outcome_for "likedPhotos"
         (fst (getAlbumAsync "likedPhotos" (service Runs.first_shown))) entries.
Proof.
  apply (classification_writes_one_outcome (component Runs.first_shown) right
           "likedPhotos" Device.photo2 Runs.first_shown);
    vm_compute; reflexivity.
Defined.

Lemma lookup_failure_is_swallowed_witness :
  swipe MoreRuns.cut_off down =
  mkWorld (moved (component MoreRuns.cut_off) (component MoreRuns.cut_off))
          Device.broken_phone
          (calls MoreRuns.cut_off ++ [Call_getAlbum "toDelete"])
          (console MoreRuns.cut_off ++ [error_managing_photo Device.unavailable]).
Proof.
  apply (lookup_failure_is_swallowed MoreRuns.cut_off down "toDelete"
           Device.photo2 Device.unavailable Device.broken_phone);
    vm_compute; reflexivity.
Defined.

Lemma null_album_is_reported_witness :
  swipe MoreRuns.sealed up =
  mkWorld (moved (component MoreRuns.sealed) (component MoreRuns.sealed))
          (SealedDevice.seal Device.phone)
          (calls MoreRuns.sealed
           ++ [Call_getAlbum "superlikedPhotos";
               Call_createAlbum "superlikedPhotos" Device.photo2 false])
          (console MoreRuns.sealed
           ++ [log_album_not_found "superlikedPhotos";
               error_managing_photo "Failed to create the album."]).
Proof.
  apply (null_album_is_reported MoreRuns.sealed up "superlikedPhotos"
           Device.photo2 (SealedDevice.seal Device.phone)
           (SealedDevice.seal Device.phone));
    vm_compute; reflexivity.
Defined.

Lemma empty_album_shows_message_witness :
  render (component (session "a3" Device.phone MoreRuns.events)) = Some NoPhotos
  /\ calls (session "a3" Device.phone MoreRuns.events)
     = [Call_getAssets (photoOptions "a3")]
  /\ currentIndex (component (session "a3" Device.phone MoreRuns.events)) = 0.
Proof.
  apply (empty_album_shows_message "a3" Device.phone Device.phone
           (mkPagedInfo [] 0) MoreRuns.events);
    vm_compute; reflexivity.
Defined.

Lemma failed_load_keeps_loading_witness :
  fst (loadPhotos "a1" initial (mount Device.broken_phone))
    = Rejected Device.unavailable
  /\ component (session "a1" Device.broken_phone MoreRuns.events) = initial
  /\ render (component (session "a1" Device.broken_phone MoreRuns.events))
     = Some LoadingPhotos
  /\ calls (session "a1" Device.broken_phone MoreRuns.events)
     = [Call_getAssets (photoOptions "a1")]
  /\ console (session "a1" Device.broken_phone MoreRuns.events) = [].
Proof.
  apply (failed_load_keeps_loading "a1" Device.broken_phone Device.broken_phone
           Device.unavailable MoreRuns.events).
  vm_compute; reflexivity.
Defined.

Lemma photos_shown_in_reverse_witness :
  3%nat = length [Device.photo1; Device.photo2; Device.photo3]
  /\ 1 <= 3 <= Z.of_nat 3
  /\ exists p,
       [Device.photo1; Device.photo2; Device.photo3] !! (3 - Z.to_nat 3)%nat
         = Some p
       /\ asset_uri p = "file:///1.jpg"%string.
Proof.
  apply (photos_shown_in_reverse "a2" Device.phone Device.phone
           (mkPagedInfo [Device.photo1; Device.photo2; Device.photo3] 3)
           MoreRuns.events false "file:///1.jpg" 3 3);
    vm_compute; reflexivity.
Defined.

Lemma overlay_follows_index_witness :
  imageLoading (component (gesture 60 0 Runs.last_shown))
    = (if currentIndex (component (gesture 60 0 Runs.last_shown))
          =? currentIndex (component Runs.last_shown)
       then imageLoading (component Runs.last_shown) else true)
  /\ snd (onLoad Runs.last_shown) =
     mkWorld (mkState (photos (component Runs.last_shown))
                      (currentIndex (component Runs.last_shown))
                      (loading (component Runs.last_shown)) false)
             (service Runs.last_shown) (calls Runs.last_shown)
             (console Runs.last_shown).
Proof.
  apply (overlay_follows_index Runs.last_shown 60 0). vm_compute; reflexivity.
Defined.

Lemma every_album_is_counted_witness :
  calls (AlbumListScreen.loaded Device.phone)
  = [Call_requestPermissions; Call_getAlbums]
    ++ Shape.count_queries [Device.camera; Device.screenshots; Device.downloads].
Proof.
  apply (every_album_is_counted Device.phone Device.phone Device.phone
           [Device.camera; Device.screenshots; Device.downloads]);
    vm_compute; reflexivity.
Defined.

Lemma tapped_row_opens_its_album_witness :
  Device.screenshots ∈ [Device.camera; Device.screenshots; Device.downloads]
  /\ App.present (App.onPress (mkAlbumWithCount Device.screenshots 3)) Device.phone
     = Some (App.Photos "Screenshots" (opened "a2" Device.phone))
  /\ calls (opened "a2" Device.phone)
     = [Call_getAssets
          (mkAssetsOptions "a2" (Some photo) (Some 1000) [SortBy_creationTime])].
Proof.
  apply (tapped_row_opens_its_album Device.phone Device.phone Device.phone
           Device.phone [Device.camera; Device.screenshots; Device.downloads]
           [mkAlbumWithCount Device.screenshots 3;
            mkAlbumWithCount Device.camera 2;
            mkAlbumWithCount Device.downloads 0]
           (mkAlbumWithCount Device.screenshots 3)).
  - vm_compute; reflexivity.
  - vm_compute; reflexivity.
  - vm_compute; reflexivity.
  - apply list_elem_of_here.
Defined.

Lemma late_handler_overwrites_index_witness :
  currentIndex (component MoreRuns.ahead) = 2
  /\ currentIndex (component (fst (Interleaved.resume MoreRuns.late MoreRuns.ahead)))
     = 1
  /\ imageLoading (component (fst (Interleaved.resume MoreRuns.late MoreRuns.ahead)))
     = true
  /\ photos (component (fst (Interleaved.resume MoreRuns.late MoreRuns.ahead)))
     = photos (component MoreRuns.ahead).
Proof.
  split; [reflexivity|].
  apply (late_handler_overwrites_index MoreRuns.late MoreRuns.ahead);
    vm_compute; reflexivity.
Defined.

Lemma index_after_swipes_witness :
  currentIndex
    (component
       (session "a2" Device.phone
          [pan_released 60 0; pan_released 0 (-70); pan_released (-51) 50;
           pan_released 0 99; pan_released 60 60]))
  = Z.min 5 2.
Proof.
  apply (index_after_swipes "a2" Device.phone Device.phone
           (mkPagedInfo [Device.photo1; Device.photo2; Device.photo3] 3)
           [pan_released 60 0; pan_released 0 (-70); pan_released (-51) 50;
            pan_released 0 99; pan_released 60 60]).
  - vm_compute; reflexivity.
  - discriminate.
  - repeat constructor; first [left; vm_compute; reflexivity
                              | right; vm_compute; reflexivity].
Defined.

Lemma index_waits_for_the_library_witness :
  component (fst (Interleaved.start (component Runs.first_shown) right
                    Runs.first_shown))
    = component Runs.first_shown
  /\ is_Some (snd (Interleaved.start (component Runs.first_shown) right
                     Runs.first_shown))
  /\ (is_Some (snd (Interleaved.resume
                      (Interleaved.at_lookup (component Runs.first_shown)
                         "likedPhotos" Device.photo2 (Resolved None))
                      Runs.first_shown)) ->
      component (fst (Interleaved.resume
                        (Interleaved.at_lookup (component Runs.first_shown)
                           "likedPhotos" Device.photo2 (Resolved None))
                        Runs.first_shown))
      = component Runs.first_shown).
Proof.
  apply (index_waits_for_the_library (component Runs.first_shown) right
           "likedPhotos" Device.photo2 Runs.first_shown);
    vm_compute; reflexivity.
Defined.

Lemma quick_swipes_classify_the_same_photo_witness :
  exists p answer1 answer2,
    js_index (photos (component Runs.first_shown))
             (currentIndex (component Runs.first_shown)) = Some p
    /\ Interleaved.pending
         (Interleaved.step
            (Interleaved.step (Interleaved.mkSystem Runs.first_shown [])
                              (Interleaved.released 60 0))
            (Interleaved.released 0 80))
       = [Interleaved.at_lookup (component Runs.first_shown) "likedPhotos" p answer1;
          Interleaved.at_lookup (component Runs.first_shown) "toDelete" p answer2]
    /\ component
         (Interleaved.world
            (Interleaved.step
               (Interleaved.step (Interleaved.mkSystem Runs.first_shown [])
                                 (Interleaved.released 60 0))
               (Interleaved.released 0 80)))
       = component Runs.first_shown.
Proof.
  apply (quick_swipes_classify_the_same_photo
           (Interleaved.mkSystem Runs.first_shown [])
           60 0 right "likedPhotos" 0 80 down "toDelete");
    vm_compute; reflexivity.
Defined.

Lemma rejected_call_keeps_album_list_loading_witness :
  (exists e, fst (AlbumListScreen.loadAlbums
                    (AlbumListScreen.mount Device.broken_phone)) = Rejected e)
  /\ component (AlbumListScreen.loaded Device.broken_phone)
     = AlbumListScreen.initial
  /\ AlbumListScreen.render (component (AlbumListScreen.loaded Device.broken_phone))
     = AlbumListScreen.LoadingAlbums
  /\ console (AlbumListScreen.loaded Device.broken_phone) = [].
Proof.
  apply (rejected_call_keeps_album_list_loading Device.broken_phone).
  left. exists Device.unavailable, Device.broken_phone. vm_compute; reflexivity.
Defined.
